(** * Cyberflow: the particle engine of [CyberCanvas.tsx]

    A shallow embedding of the particle simulation of
    [src/components/CyberCanvas.tsx]: the [Particle] class (constructor,
    [resetVelocity], [update]), the particle-count reconciliation
    [initParticles], the text sampler [processText] and the per-frame
    function [animate] with its connection loop.

    Modelling conventions.
    - A JavaScript [number] is a real number ([R]); rounding of IEEE doubles
      is not modelled.  [Math.sqrt], [Math.cos], [Math.sin] are the functions
      of the same name of the real-number library, [Math.atan2] is [atan2]
      below, [Math.floor] is [Rfloor] below.
    - [Math.random()] reads an oracle [rnd : nat -> R]: the k-th call of
      a run returns [rnd k].  Code that draws random numbers lives in the
      state monad [Rand], whose state is the number of draws made so far.
      That every draw lies in [[0, 1)] is the hypothesis [unit_draws].
    - An array is a [list]; an object whose fields are assigned is a record
      that is rebuilt.
    - What the browser contributes to [processText] (the measured text
      width and the pixels of the scratch canvas) is a [Browser] record.

    The development also covers [Particle.draw], the recording functions of
    [CyberCanvas.tsx] and the handlers of the control surface ([App]), with
    the table of resolutions of [constants.ts]. *)

From Stdlib Require Import Reals Lra Lia List ZArith String Bool Arith Permutation.
Import ListNotations.

Local Open Scope R_scope.

(** ** Numbers *)

(** [Math.floor] on a real number. *)
Definition Rfloor (r : R) : Z := (up r - 1)%Z.

(** [Math.atan2(y, x)], signs of zeros aside. *)
Definition atan2 (y x : R) : R :=
  if Rlt_dec 0 x then atan (y / x)
  else if Rlt_dec x 0 then
    (if Rle_dec 0 y then atan (y / x) + PI else atan (y / x) - PI)
  else if Rlt_dec 0 y then PI / 2
  else if Rlt_dec y 0 then - (PI / 2)
  else 0.

(** ** The random source *)

Module Rng.

(** A computation that may call [Math.random()]: it receives the oracle
    and the number of draws made so far and returns its result with the
    new number of draws. *)
Definition Rand (A : Type) : Type := (nat -> R) -> nat -> A * nat.

Definition ret {A} (a : A) : Rand A := fun _ k => (a, k).

Definition bind {A B} (c : Rand A) (f : A -> Rand B) : Rand B :=
  fun rnd k => let (a, k') := c rnd k in f a rnd k'.

(** [Math.random()] *)
Definition random : Rand R := fun rnd k => (rnd k, S k).

(** Every draw is in [[0, 1)]. *)
Definition unit_draws (rnd : nat -> R) : Prop :=
  forall k, 0 <= rnd k < 1.

End Rng.

Import Rng.

Declare Scope rand_scope.
Delimit Scope rand_scope with rand.
Notation "x <- c ;; k" := (bind c (fun x => k))
  (at level 61, c at next level, right associativity) : rand_scope.
Local Open Scope rand_scope.

(** ** Types ([types.ts]) *)

Inductive VisualStyle := network | bokeh | matrix | vortex | nova.

Definition VisualStyle_eq_dec (a b : VisualStyle) : {a = b} + {a <> b}.
Proof. decide equality. Defined.

Definition is_style (a b : VisualStyle) : bool :=
  if VisualStyle_eq_dec a b then true else false.

(** ** class Particle *)

Record Particle := mkParticle {
  x : R;
  y : R;
  z : R;          (* Depth *)
  vx : R;
  vy : R;
  size : R;
  angle : R;      (* Vortex specific *)
  radius : R;
  targetX : option R;   (* Text morphing specific; [None] is null *)
  targetY : option R
}.

Definition set_x (p : Particle) (v : R) : Particle :=
  mkParticle v (y p) (z p) (vx p) (vy p) (size p) (angle p) (radius p)
             (targetX p) (targetY p).
Definition set_y (p : Particle) (v : R) : Particle :=
  mkParticle (x p) v (z p) (vx p) (vy p) (size p) (angle p) (radius p)
             (targetX p) (targetY p).
Definition set_z (p : Particle) (v : R) : Particle :=
  mkParticle (x p) (y p) v (vx p) (vy p) (size p) (angle p) (radius p)
             (targetX p) (targetY p).
Definition set_vx (p : Particle) (v : R) : Particle :=
  mkParticle (x p) (y p) (z p) v (vy p) (size p) (angle p) (radius p)
             (targetX p) (targetY p).
Definition set_vy (p : Particle) (v : R) : Particle :=
  mkParticle (x p) (y p) (z p) (vx p) v (size p) (angle p) (radius p)
             (targetX p) (targetY p).
Definition set_size (p : Particle) (v : R) : Particle :=
  mkParticle (x p) (y p) (z p) (vx p) (vy p) v (angle p) (radius p)
             (targetX p) (targetY p).
Definition set_angle (p : Particle) (v : R) : Particle :=
  mkParticle (x p) (y p) (z p) (vx p) (vy p) (size p) v (radius p)
             (targetX p) (targetY p).
Definition set_target (p : Particle) (tx ty : option R) : Particle :=
  mkParticle (x p) (y p) (z p) (vx p) (vy p) (size p) (angle p) (radius p)
             tx ty.

(** [resetVelocity(style)].  The direction is drawn first, for every
    style; vortex matches no branch and keeps its velocity. *)
Definition resetVelocity (style : VisualStyle) (p : Particle) : Rand Particle :=
  d <- random ;;
  let direction := if Rgt_dec d 0.5 then 1 else -1 in
  let baseSpeed := 0.5 in
  match style with
  | network =>
      r1 <- random ;;
      let p := set_vx p ((r1 * baseSpeed + 0.1) * direction) in
      r2 <- random ;;
      ret (set_vy p ((r2 * baseSpeed + 0.1) * direction))
  | bokeh =>
      r1 <- random ;;
      let p := set_vx p (r1 * 0.2 - 0.1) in
      r2 <- random ;;
      ret (set_vy p (r2 * -0.5 - 0.2))
  | matrix =>
      let p := set_vx p 0 in
      r1 <- random ;;
      ret (set_vy p (r1 * 5 + 2))
  | nova =>
      r1 <- random ;;
      let p := set_vx p (r1 * 2 - 1) in
      r2 <- random ;;
      ret (set_vy p (r2 * 2 - 1))
  | vortex => ret p
  end.

(** [new Particle(width, height, style)] *)
Definition newParticle (width height : R) (style : VisualStyle) : Rand Particle :=
  rx <- random ;;
  ry <- random ;;
  rz <- random ;;
  rs <- random ;;
  let x0 := rx * width in
  let y0 := ry * height in
  let dx := x0 - width / 2 in
  let dy := y0 - height / 2 in
  let p := mkParticle x0 y0 (rz * 2 + 0.5) 0 0 (rs * 2 + 0.5)
                      (atan2 dy dx) (sqrt (dx * dx + dy * dy)) None None in
  p <- resetVelocity style p ;;
  if is_style style bokeh then
    r1 <- random ;;
    let p := set_size p (r1 * 15 + 5) in
    r2 <- random ;;
    ret (set_z p (r2 * 1.5 + 0.5))
  else ret p.

(** Comparisons of numbers, as booleans. *)
Definition Rltb (a b : R) : bool := if Rlt_dec a b then true else false.

(** [v || d] on numbers: [d] when [v] is zero. *)
Definition or_else (v d : R) : R := if Req_dec_T v 0 then d else v.

(** [update(width, height, speedMultiplier, scaleRatio, style)] *)
Definition update (width height speedMultiplier scaleRatio : R)
    (style : VisualStyle) (p : Particle) : Rand Particle :=
  let effectiveSpeed := speedMultiplier * scaleRatio in
  match targetX p, targetY p with
  | Some tX, Some tY =>
      (* Text morphing: ease towards the target, skip standard physics *)
      let dx := tX - x p in
      let dy := tY - y p in
      let p := set_x p (x p + dx * 0.05 * effectiveSpeed) in
      let p := set_y p (y p + dy * 0.05 * effectiveSpeed) in
      r1 <- random ;;
      let p := set_x p (x p + (r1 - 0.5) * 0.5 * scaleRatio) in
      r2 <- random ;;
      let p := set_y p (y p + (r2 - 0.5) * 0.5 * scaleRatio) in
      ret (set_z p (z p + (1.0 - z p) * 0.05))
  | _, _ =>
      match style with
      | vortex =>
          let p := set_angle p (angle p + (0.005 * effectiveSpeed) / z p) in
          let p := set_x p (width / 2 + cos (angle p) * radius p) in
          ret (set_y p (height / 2 + sin (angle p) * radius p))
      | nova =>
          let dx := x p - width / 2 in
          let dy := y p - height / 2 in
          let dist := or_else (sqrt (dx * dx + dy * dy)) 1 in
          let p := set_vx p ((dx / dist) * 2) in
          let p := set_vy p ((dy / dist) * 2) in
          let p := set_x p (x p + vx p * effectiveSpeed) in
          let p := set_y p (y p + vy p * effectiveSpeed) in
          if Rltb (x p) (-100) || Rltb (width + 100) (x p)
             || Rltb (y p) (-100) || Rltb (height + 100) (y p)
          then
            r1 <- random ;;
            let p := set_x p (width / 2 + (r1 * 20 - 10)) in
            r2 <- random ;;
            ret (set_y p (height / 2 + (r2 * 20 - 10)))
          else ret p
      | _ =>
          (* Standard linear motion (network, bokeh, matrix) *)
          let p := set_x p (x p + vx p * effectiveSpeed) in
          let p := set_y p (y p + vy p * effectiveSpeed) in
          let p := if Rltb (x p) (-50) then set_x p (width + 50) else p in
          let p := if Rltb (width + 50) (x p) then set_x p (-50) else p in
          if is_style style bokeh then
            ret (if Rltb (y p) (-50) then set_y p (height + 50) else p)
          else if is_style style matrix then
            ret (if Rltb (height + 50) (y p) then set_y p (-50) else p)
          else
            let p := if Rltb (y p) (-50) then set_y p (height + 50) else p in
            ret (if Rltb (height + 50) (y p) then set_y p (-50) else p)
      end
  end.

(** ** Configuration ([types.ts]) *)

(** Widths and heights are pixel counts: the [width] and [height] of a
    canvas are unsigned integers, and so are those of [RESOLUTIONS]. *)
Record Resolution := mkResolution {
  label : string;
  width : N;
  height : N
}.

Record ColorTheme := mkColorTheme {
  name : string;
  primary : string;
  glow : string;
  accent : string
}.

Record VisualizerConfig := mkConfig {
  resolution : Resolution;
  theme : ColorTheme;
  style : VisualStyle;
  particleCount : Z;
  speed : R;
  connectionDistance : R;
  seed : R;
  text : string
}.

(** A pixel count as a number. *)
Definition pixels (n : N) : R := IZR (Z.of_N n).

(** Truthiness of [config.text]: a string is falsy when empty. *)
Definition text_active (config : VisualizerConfig) : bool :=
  match text config with EmptyString => false | _ => true end.

(** [constants.ts]: RESOLUTIONS[0] and THEMES[0]. *)
Definition fullHD : Resolution := mkResolution "Full HD (1920x1080)" 1920 1080.
Definition cyberCyan : ColorTheme :=
  mkColorTheme "Cyber Cyan" "#06b6d4" "6, 182, 212" "cyan-500".

(** ** initParticles *)

(** The loop [for (i = ...; i < targetCount; i++) push(new Particle(...))],
    with [n] iterations left. *)
Fixpoint pushParticles (n : nat) (w h : R) (style : VisualStyle)
    (current : list Particle) : Rand (list Particle) :=
  match n with
  | O => ret current
  | S n' =>
      p <- newParticle w h style ;;
      pushParticles n' w h style (current ++ [p])
  end.

(** [initParticles(width, height)] on the array [particlesRef.current];
    the result is the new content of that array.  Assigning a negative
    [length] to an array throws a RangeError: [None]. *)
Definition initParticles (config : VisualizerConfig) (w h : R)
    (currentParticles : list Particle) : Rand (option (list Particle)) :=
  let targetCount := particleCount config in
  let len := Z.of_nat (List.length currentParticles) in
  let resized : Rand (option (list Particle)) :=
    if (len <? targetCount)%Z then
      l <- pushParticles (Z.to_nat (targetCount - len)) w h (style config)
                         currentParticles ;;
      ret (Some l)
    else if (targetCount <? len)%Z then
      (if (targetCount <? 0)%Z then ret None
       else ret (Some (firstn (Z.to_nat targetCount) currentParticles)))
    else ret (Some currentParticles) in
  r <- resized ;;
  match r with
  | None => ret None
  | Some l =>
      match l with
      | [] =>
          l' <- pushParticles (Z.to_nat targetCount) w h (style config) l ;;
          ret (Some l')
      | _ => ret (Some l)
      end
  end.

(** ** Text to points ([processText]) *)

Record TextPoint := mkPoint { pt_x : R; pt_y : R }.

(** What the browser supplies to the text effect:
    - [canvasMounted]: [canvasRef.current] is set;
    - [context2d]: [getContext('2d')] of the scratch canvas is not null;
    - [measureText t]: the width of [t] in the bold 250px font;
    - [getImageData t fontSize scanHeight]: the RGBA bytes of the
      800 x scanHeight scratch canvas after [fillText] of [t] at
      [fontSize]. *)
Record Browser := mkBrowser {
  canvasMounted : bool;
  context2d : bool;
  measureText : string -> R;
  getImageData : string -> Z -> R -> list Z
}.

Definition scanWidth : Z := 800.

(** [for (v = start; cond(v); v += gap) body(v)], the results of the body
    concatenated; [fuel] bounds the number of iterations. *)
Fixpoint forStep {A} (fuel : nat) (v gap : Z) (cond : Z -> bool)
    (body : Z -> list A) : list A :=
  match fuel with
  | O => []
  | S f => if cond v then body v ++ forStep f (v + gap)%Z gap cond body else []
  end.

(** [imageData[index + 3] > 128]; reading past the end gives undefined,
    which is not greater than 128. *)
Definition visible (imageData : list Z) (index : Z) : bool :=
  match nth_error imageData (Z.to_nat (index + 3)) with
  | Some a => (128 <? a)%Z
  | None => false
  end.

(** The font size after auto-scaling, from the measured width. *)
Definition fitFontSize (textWidth : R) : Z :=
  let fontSize := 250%Z in
  let padding := 50 in
  let maxWidth := IZR scanWidth - padding * 2 in
  if Rltb maxWidth textWidth then
    let ratio := maxWidth / textWidth in
    Rfloor (IZR fontSize * ratio)
  else fontSize.

(** [Math.max(2, Math.floor(fontSize / 40))] *)
Definition samplingGap (fontSize : Z) : Z :=
  Z.max 2 (Rfloor (IZR fontSize / 40)).

(** The scan loops.  The rows are 0, gap, 2 gap, ... below [scanHeight],
    so [up scanHeight] iterations are enough when [gap >= 1]; the columns
    are below 800. *)
Definition scanPixels (imageData : list Z) (gap : Z) (scanHeight w h : R)
    : list TextPoint :=
  forStep (Z.to_nat (up scanHeight)) 0 gap
    (fun y => Rltb (IZR y) scanHeight)
    (fun y =>
       forStep (Z.to_nat scanWidth) 0 gap
         (fun x => (x <? scanWidth)%Z)
         (fun x =>
            let index := ((y * scanWidth + x) * 4)%Z in
            if visible imageData index then
              [mkPoint (IZR x / IZR scanWidth * w) (IZR y / scanHeight * h)]
            else [])).

(** [a[i] = v] inside the array. *)
Fixpoint assign {A} (l : list A) (i : nat) (v : A) : list A :=
  match l, i with
  | [], _ => []
  | _ :: t, O => v :: t
  | a :: t, S i' => a :: assign t i' v
  end.

(** [[a[i], a[j]] = [a[j], a[i]]]; both indices are inside the array
    whenever the draws are in [[0, 1)]. *)
Definition swap {A} (l : list A) (i j : nat) : list A :=
  match nth_error l i, nth_error l j with
  | Some a, Some b => assign (assign l i b) j a
  | _, _ => l
  end.

(** [for (i = ...; i > 0; i--) { j = floor(random() * (i + 1)); swap }] *)
Fixpoint shuffle (i : nat) (points : list TextPoint) : Rand (list TextPoint) :=
  match i with
  | O => ret points
  | S i' =>
      r <- random ;;
      let j := Rfloor (r * (INR i + 1)) in
      shuffle i' (swap points i (Z.to_nat j))
  end.

Definition processText (b : Browser) (config : VisualizerConfig)
    : Rand (list TextPoint) :=
  let w := pixels (width (resolution config)) in
  let h := pixels (height (resolution config)) in
  let aspectRatio := w / h in
  let scanHeight := IZR scanWidth / aspectRatio in
  let fontSize := fitFontSize (measureText b (text config)) in
  let imageData := getImageData b (text config) fontSize scanHeight in
  let gap := samplingGap fontSize in
  let points := scanPixels imageData gap scanHeight w h in
  shuffle (List.length points - 1) points.

(** The effect on [config.text] and [config.resolution]; [prev] is
    [textPointsRef.current] before it runs, the result its value after. *)
Definition textEffect (b : Browser) (config : VisualizerConfig)
    (prev : list TextPoint) : Rand (list TextPoint) :=
  if negb (text_active config) || negb (canvasMounted b) then ret []
  else if negb (context2d b) then ret prev
  else processText b config.

(** ** The frame ([animate]) *)

(** A stroked connection: the two indices and the constant [opacity];
    the stroke colour has alpha [opacity * 0.25]. *)
Record Edge := mkEdge { src : nat; dst : nat; opacity : R }.

Definition strokeAlpha (e : Edge) : R := opacity e * 0.25.

Definition scaleRatioOf (canvasWidth : N) : R := pixels canvasWidth / 1920.

(** [config.connectionDistance * scaleRatio] *)
Definition effectiveConnectionDistOf (config : VisualizerConfig) : R :=
  connectionDistance config * scaleRatioOf (width (resolution config)).

(** The loop over the particles: target assignment, then [update].
    [draw] only paints and is left out. *)
Fixpoint animateParticles (config : VisualizerConfig) (w h scaleRatio : R)
    (textPoints : list TextPoint) (i textPIndex : nat)
    (particles : list Particle) : Rand (list Particle) :=
  match particles with
  | [] => ret []
  | p :: rest =>
      let morphs :=
        (0 <? List.length textPoints)%nat && negb (i mod 5 =? 0)%nat in
      let p :=
        if morphs then
          let targetIndex := (textPIndex mod List.length textPoints)%nat in
          let t := nth targetIndex textPoints (mkPoint 0 0) in
          set_target p (Some (pt_x t)) (Some (pt_y t))
        else set_target p None None in
      let textPIndex := if morphs then S textPIndex else textPIndex in
      p <- update w h (speed config) scaleRatio (style config) p ;;
      rest <- animateParticles config w h scaleRatio textPoints (S i)
                               textPIndex rest ;;
      ret (p :: rest)
  end.

(** The inner connection loop, for one [i]. *)
Definition connectFrom (config : VisualizerConfig)
    (effectiveConnectionDist : R) (particles : list Particle)
    (i : nat) (pi : Particle) : list Edge :=
  flat_map
    (fun j =>
       match nth_error particles j with
       | None => []
       | Some pj =>
           let distLimit :=
             if text_active config then effectiveConnectionDist * 0.6
             else effectiveConnectionDist in
           let dx := x pi - x pj in
           let dy := y pi - y pj in
           if Rltb distLimit (Rabs dx) || Rltb distLimit (Rabs dy) then []
           else
             let distance := sqrt (dx * dx + dy * dy) in
             if Rltb distance distLimit
             then [mkEdge i j (1 - distance / distLimit)]
             else []
       end)
    (seq (S i) (List.length particles - S i)).

(** The connection loops. *)
Definition connections (config : VisualizerConfig)
    (effectiveConnectionDist : R) (particles : list Particle) : list Edge :=
  flat_map
    (fun i =>
       match nth_error particles i with
       | None => []
       | Some pi =>
           if Rltb 1.8 (z pi) then []
           else connectFrom config effectiveConnectionDist particles i pi
       end)
    (seq 0 (List.length particles)).

Record Frame := mkFrame { particles : list Particle; edges : list Edge }.

(** One call of [animate]: the particles after the frame and the
    connections stroked in it. *)
Definition animate (config : VisualizerConfig) (textPoints : list TextPoint)
    (current : list Particle) : Rand Frame :=
  let w := pixels (width (resolution config)) in
  let h := pixels (height (resolution config)) in
  let scaleRatio := scaleRatioOf (width (resolution config)) in
  let effectiveConnectionDist := effectiveConnectionDistOf config in
  ps <- animateParticles config w h scaleRatio textPoints 0 0 current ;;
  ret (mkFrame ps
         (if is_style (style config) network || text_active config
          then connections config effectiveConnectionDist ps
          else [])).

(** [n] frames in a row. *)
Fixpoint frames (n : nat) (config : VisualizerConfig)
    (textPoints : list TextPoint) (current : list Particle)
    : Rand (list Particle) :=
  match n with
  | O => ret current
  | S n' =>
      f <- animate config textPoints current ;;
      frames n' config textPoints (particles f)
  end.

(** ** Sample inputs *)

(** The draws of [rnd0] are all 0, those of [rndHalf] all 1/2. *)
Definition rnd0 : nat -> R := fun _ => 0.
Definition rndHalf : nat -> R := fun _ => 0.5.

(** The configuration [App] starts from, with the style, the particle
    count and the text of choice. *)
Definition configWith (st : VisualStyle) (count : Z) (txt : string)
    : VisualizerConfig :=
  mkConfig fullHD cyberCyan st count 1 120 1 txt.

(** *** Vocabulary of the statements *)

(** The Euclidean distance between two particles. *)
Definition distanceBetween (p q : Particle) : R :=
  sqrt ((x p - x q) * (x p - x q) + (y p - y q) * (y p - y q)).

(** The distance limit of a configuration: [connectionDistance * scaleRatio],
    times 0.6 when the text is not empty. *)
Definition distLimitOf (config : VisualizerConfig) : R :=
  if text_active config
  then connectionDistance config * scaleRatioOf (width (resolution config)) * 0.6
  else connectionDistance config * scaleRatioOf (width (resolution config)).

(** The connections stroked for a particle array as [animate] strokes them. *)
Definition connectionGraph (config : VisualizerConfig)
    (ps : list Particle) : list Edge :=
  connections config (effectiveConnectionDistOf config) ps.

(** A particle at rest at (px, py) with depth pz, without a target. *)
Definition particleAt (px py pz : R) : Particle :=
  mkParticle px py pz 0 0 1 0 0 None None.

(** The distance of a particle from the centre of a w x h surface. *)
Definition centerDistance (w h : R) (p : Particle) : R :=
  sqrt ((x p - w / 2) * (x p - w / 2) + (y p - h / 2) * (y p - h / 2)).

(** A browser whose scratch canvas stays blank. *)
Definition blankBrowser : Browser :=
  mkBrowser true true (fun _ => 0) (fun _ _ _ => []).

(** A particle without morph target. *)
Definition untargeted (p : Particle) : Prop :=
  targetX p = None /\ targetY p = None.

(** Degenerate surfaces. *)
Definition zeroWidth : Resolution := mkResolution "0x1080" 0 1080.
Definition zeroHeight : Resolution := mkResolution "1920x0" 1920 0.

Definition configOn (res : Resolution) (st : VisualStyle) : VisualizerConfig :=
  mkConfig res cyberCyan st 1 1 120 1 EmptyString.


(** The pixels [processText] reads for a configuration. *)
Definition scanHeightOf (config : VisualizerConfig) : R :=
  IZR scanWidth / (pixels (width (resolution config))
                   / pixels (height (resolution config))).

Definition gapOf (b : Browser) (config : VisualizerConfig) : Z :=
  samplingGap (fitFontSize (measureText b (text config))).

Definition imageDataOf (b : Browser) (config : VisualizerConfig) : list Z :=
  getImageData b (text config)
               (fitFontSize (measureText b (text config)))
               (scanHeightOf config).

(** A browser that measures every text 340 pixels wide and paints the whole
    800 x 450 scratch canvas opaque. *)
Definition solidBrowser : Browser :=
  mkBrowser true true (fun _ => 340)
            (fun _ _ _ => repeat 255%Z (Z.to_nat (800 * 450 * 4))).



(** *** Vocabulary of the further properties *)

(** The number of indices below [i] that are not multiples of 5: the value
    of [textPIndex] when the loop of [animate] reaches particle [i]. *)
Definition textSlot (i : nat) : nat := (i - (i + 4) / 5)%nat.

(** The text point that a frame assigns to particle [i], if any. *)
Definition assignedPoint (textPoints : list TextPoint) (i : nat)
    : option TextPoint :=
  if (0 <? List.length textPoints)%nat && negb (i mod 5 =? 0)%nat
  then Some (nth (textSlot i mod List.length textPoints) textPoints
                 (mkPoint 0 0))
  else None.

(** Particle [i] with the target a frame gives it. *)
Definition withAssigned (textPoints : list TextPoint) (i : nat)
    (p : Particle) : Particle :=
  set_target p (option_map pt_x (assignedPoint textPoints i))
               (option_map pt_y (assignedPoint textPoints i)).

(** ** The control surface ([App]) *)

(** [constants.ts]: RESOLUTIONS. *)
Definition RESOLUTIONS : list Resolution :=
  [ fullHD;
    mkResolution "2K Quad HD (2560x1440)" 2560 1440;
    mkResolution "4K Ultra HD (3840x2160)" 3840 2160;
    mkResolution "Social Square (1080x1080)" 1080 1080;
    mkResolution "Portrait (1080x1920)" 1080 1920 ].

(** The configuration [App] starts from. *)
Definition initialConfig : VisualizerConfig :=
  mkConfig fullHD cyberCyan network 200 1 120 1 EmptyString.

(** [handleResolutionChange], on the label the select element reports. *)
Definition handleResolutionChange (value : string) (config : VisualizerConfig)
    : VisualizerConfig :=
  let res :=
    match find (fun r => String.eqb (label r) value) RESOLUTIONS with
    | Some r => r
    | None => fullHD
    end in
  let baseParticles := 150 in
  let pixelRatio :=
    (pixels (width res) * pixels (height res)) / (1920 * 1080) in
  let newCount := IZR (Rfloor (baseParticles * sqrt pixelRatio)) in
  let newCount :=
    if is_style (style config) bokeh then Rmin (newCount * 0.5) 100
    else Rmin newCount 400 in
  let newCount :=
    if text_active config then Rmin (newCount * 1.5) 600 else newCount in
  mkConfig res (theme config) (style config) (Rfloor newCount)
           (speed config) (connectionDistance config) (seed config)
           (text config).

(** [handleThemeChange] *)
Definition handleThemeChange (t : ColorTheme) (config : VisualizerConfig)
    : VisualizerConfig :=
  mkConfig (resolution config) t (style config) (particleCount config)
           (speed config) (connectionDistance config) (seed config)
           (text config).

(** [handleStyleChange], on the style the select element reports. *)
Definition handleStyleChange (st : VisualStyle) (config : VisualizerConfig)
    : VisualizerConfig :=
  let newSpeed := speed config in
  let newDist := connectionDistance config in
  let newSpeed := if is_style st matrix then 2 else newSpeed in
  let newSpeed := if is_style st bokeh then 0.5 else newSpeed in
  mkConfig (resolution config) (theme config) st (particleCount config)
           newSpeed newDist (seed config) (text config).

(** [randomize] *)
Definition randomize (config : VisualizerConfig) : Rand VisualizerConfig :=
  r <- random ;;
  ret (mkConfig (resolution config) (theme config) (style config)
                (particleCount config) (speed config)
                (connectionDistance config) r (text config)).

(** What the user does to the controls; the sliders report the number
    parsed from their value. *)
Inductive AppEvent :=
| ResolutionSelected (value : string)
| ThemeClicked (t : ColorTheme)
| StyleSelected (st : VisualStyle)
| MixClicked
| TextTyped (value : string)
| SpeedSlid (value : R)
| CountSlid (value : Z)
| DistanceSlid (value : Z).

(** The handler of each control. *)
Definition handleEvent (e : AppEvent) (config : VisualizerConfig)
    : Rand VisualizerConfig :=
  match e with
  | ResolutionSelected value => ret (handleResolutionChange value config)
  | ThemeClicked t => ret (handleThemeChange t config)
  | StyleSelected st => ret (handleStyleChange st config)
  | MixClicked => randomize config
  | TextTyped value =>
      ret (mkConfig (resolution config) (theme config) (style config)
                    (particleCount config) (speed config)
                    (connectionDistance config) (seed config) value)
  | SpeedSlid value =>
      ret (mkConfig (resolution config) (theme config) (style config)
                    (particleCount config) value
                    (connectionDistance config) (seed config) (text config))
  | CountSlid value =>
      ret (mkConfig (resolution config) (theme config) (style config)
                    value (speed config)
                    (connectionDistance config) (seed config) (text config))
  | DistanceSlid value =>
      ret (mkConfig (resolution config) (theme config) (style config)
                    (particleCount config) (speed config)
                    (IZR value) (seed config) (text config))
  end.

(** The handlers of a sequence of events, in order. *)
Fixpoint handleEvents (es : list AppEvent) (config : VisualizerConfig)
    : Rand VisualizerConfig :=
  match es with
  | [] => ret config
  | e :: es' =>
      config' <- handleEvent e config ;;
      handleEvents es' config'
  end.

(** The [min] and [max] of the three range inputs. *)
Definition withinControls (e : AppEvent) : Prop :=
  match e with
  | SpeedSlid value => 0.1 <= value <= 5
  | CountSlid value => (20 <= value <= 1000)%Z
  | DistanceSlid value => (50 <= value <= 300)%Z
  | _ => True
  end.

(** ** Recording ([startRecording], [stopRecording], [toggleRecording]) *)

(** The candidate formats, in order of preference. *)
Definition mimeTypes : list string :=
  [ "video/mp4;codecs=h264,aac"%string;
    "video/webm;codecs=h264"%string;
    "video/webm;codecs=vp9"%string;
    "video/webm"%string ].

(** The loop over [mimeTypes]: the first supported type, or the empty
    string. *)
Fixpoint firstSupported (isTypeSupported : string -> bool)
    (types : list string) : string :=
  match types with
  | [] => EmptyString
  | type :: rest =>
      if isTypeSupported type then type
      else firstSupported isTypeSupported rest
  end.

(** [MediaRecorder.state]; the code never pauses a recorder. *)
Inductive RecorderState := inactive | recording.

(** A [MediaRecorder]: its format, its state, and whether the browser still
    owes it the [stop] event that follows [stop()]. *)
Record Recorder := mkRecorder {
  mimeType : string;
  state : RecorderState;
  stopQueued : bool
}.

(** The state of [App] and [CyberCanvas] that recording touches; a chunk
    is a blob, of which the size matters. *)
Record Studio := mkStudio {
  appIsRecording : bool;             (* App: isRecording *)
  downloadUrl : option string;       (* App: downloadUrl *)
  canvasIsRecording : bool;          (* CyberCanvas: isRecording *)
  mediaRecorder : option Recorder;   (* mediaRecorderRef.current *)
  chunks : list N                    (* chunksRef.current *)
}.

(** What the browser contributes to recording:
    - [canvasElement]: [canvasRef.current] of [CyberCanvas] is set;
    - [canvasHandle]: [canvasRef.current] of [App], the handle, is set;
    - [isTypeSupported]: [MediaRecorder.isTypeSupported];
    - [createObjectURL]: the URL of the blob made of the chunks. *)
Record Platform := mkPlatform {
  canvasElement : bool;
  canvasHandle : bool;
  isTypeSupported : string -> bool;
  createObjectURL : list N -> string -> string
}.

Definition idleStudio : Studio := mkStudio false None false None [].

(** [startRecording] *)
Definition startRecording (pf : Platform) (s : Studio) : Studio :=
  if negb (canvasElement pf) then s
  else
    let selectedMimeType := firstSupported (isTypeSupported pf) mimeTypes in
    match selectedMimeType with
    | EmptyString => s    (* console.error; return *)
    | _ =>
        mkStudio (appIsRecording s) (downloadUrl s) true
                 (Some (mkRecorder selectedMimeType recording false)) []
    end.

(** [stopRecording]; [stop()] makes the recorder inactive at once and
    queues its [stop] event. *)
Definition stopRecording (s : Studio) : Studio :=
  match mediaRecorder s with
  | Some r =>
      match state r with
      | inactive => s
      | recording =>
          mkStudio (appIsRecording s) (downloadUrl s) (canvasIsRecording s)
                   (Some (mkRecorder (mimeType r) inactive true)) (chunks s)
      end
  | None => s
  end.

(** [toggleRecording] *)
Definition toggleRecording (pf : Platform) (s : Studio) : Studio :=
  if canvasHandle pf then
    if appIsRecording s then stopRecording s
    else
      let s := mkStudio (appIsRecording s) None (canvasIsRecording s)
                        (mediaRecorder s) (chunks s) in
      let s := startRecording pf s in
      mkStudio true (downloadUrl s) (canvasIsRecording s)
               (mediaRecorder s) (chunks s)
  else s.

(** [recorder.ondataavailable] *)
Definition ondataavailable (size : N) (s : Studio) : Studio :=
  if (0 <? size)%N then
    mkStudio (appIsRecording s) (downloadUrl s) (canvasIsRecording s)
             (mediaRecorder s) (chunks s ++ [size])
  else s.

(** [recorder.onstop], which calls [handleRecordingStop] of [App]. *)
Definition onstop (pf : Platform) (r : Recorder) (s : Studio) : Studio :=
  let url := createObjectURL pf (chunks s) (mimeType r) in
  mkStudio false (Some url) false (mediaRecorder s) (chunks s).

(** What happens to the studio: the record button is clicked, or the
    browser delivers a chunk or the [stop] event to the recorder. *)
Inductive StudioEvent :=
| RecordClicked
| DataAvailable (size : N)
| StopDelivered.

Definition studioStep (pf : Platform) (e : StudioEvent) (s : Studio)
    : Studio :=
  match e with
  | RecordClicked => toggleRecording pf s
  | DataAvailable size =>
      match mediaRecorder s with
      | Some _ => ondataavailable size s
      | None => s
      end
  | StopDelivered =>
      match mediaRecorder s with
      | Some r =>
          if stopQueued r then
            onstop pf r
              (mkStudio (appIsRecording s) (downloadUrl s)
                        (canvasIsRecording s)
                        (Some (mkRecorder (mimeType r) (state r) false))
                        (chunks s))
          else s
      | None => s
      end
  end.

Definition studioRun (pf : Platform) (es : list StudioEvent) (s : Studio)
    : Studio :=
  fold_left (fun s e => studioStep pf e s) es s.

(** A configuration whose resolution is one of the table and whose slider
    fields are within the ranges of the sliders. *)
Definition withinRanges (config : VisualizerConfig) : Prop :=
  In (resolution config) RESOLUTIONS
  /\ 0.1 <= speed config <= 5
  /\ (20 <= particleCount config <= 1000)%Z
  /\ 50 <= connectionDistance config <= 300.

(** The studio after a click on the record button that could not start a
    recorder. *)
Definition stuckStudio : Studio := mkStudio true None false None [].

(** ** Drawing ([Particle.draw]) *)

(** What [draw] paints: a filled circle or a filled rectangle, in the
    colour [rgba(colorRgb, alpha)]. *)
Inductive Primitive :=
| FilledArc (cx cy r : R) (colorRgb : string) (alpha : R)
| FilledRect (rx ry rw rh : R) (colorRgb : string) (alpha : R).

(** [draw(ctx, colorRgb, style)] *)
Definition draw (colorRgb : string) (style : VisualStyle) (p : Particle)
    : list Primitive :=
  let opacity := 1 / z p in
  if is_style style bokeh then
    [FilledArc (x p) (y p) (size p * (1 / z p)) colorRgb (opacity * 0.15)]
  else if is_style style matrix then
    let trailLen := size p * 10 * (1 / z p) in
    [FilledRect (x p) (y p - trailLen) (size p) trailLen colorRgb
                (opacity * 0.8)]
  else
    let radius := size p * (1 / z p) in
    [FilledArc (x p) (y p) (radius * 4) colorRgb (opacity * 0.3);
     FilledArc (x p) (y p) radius colorRgb opacity].

(** The alpha of a primitive, and its extent: the radius of a circle, the
    height of a rectangle. *)
Definition alphaOf (pr : Primitive) : R :=
  match pr with
  | FilledArc _ _ _ _ a => a
  | FilledRect _ _ _ _ _ a => a
  end.

Definition extentOf (pr : Primitive) : R :=
  match pr with
  | FilledArc _ _ r _ _ => r
  | FilledRect _ _ _ rh _ _ => rh
  end.

(** ** Tactics and helper lemmas *)

Ltac run_rand := unfold bind, ret, random in *; cbn in *.

Ltac case_if :=
  match goal with
  | |- context [if ?b then _ else _] => destruct b eqn:?
  end.

(** Case analysis on a comparison whose operands hold no conditional. *)
Ltac case_Rltb :=
  match goal with
  | |- context [Rltb ?a ?b] =>
      lazymatch a with
      | context [if _ then _ else _] => fail
      | _ =>
          lazymatch b with
          | context [if _ then _ else _] => fail
          | _ => destruct (Rltb a b) eqn:?; cbn
          end
      end
  end.

Lemma Rltb_true (a b : R) : Rltb a b = true <-> a < b.
Proof. unfold Rltb. destruct (Rlt_dec a b); split; intros; auto; discriminate. Qed.

Lemma Rltb_false (a b : R) : Rltb a b = false <-> b <= a.
Proof.
  unfold Rltb. destruct (Rlt_dec a b); split; intros; auto; try discriminate; lra.
Qed.

Lemma pixels_nonneg (n : N) : 0 <= pixels n.
Proof. unfold pixels. apply IZR_le. lia. Qed.

Lemma rnd0_unit : unit_draws rnd0.
Proof. intros k. unfold rnd0. lra. Defined.

Lemma rndHalf_unit : unit_draws rndHalf.
Proof. intros k. unfold rndHalf. lra. Defined.

(** *** The particle array grows at its end *)

Lemma pushParticles_app (rnd : nat -> R) (w h : R) (st : VisualStyle) :
  forall (n : nat) (current : list Particle) (k : nat),
    exists added,
      fst (pushParticles n w h st current rnd k) = current ++ added
      /\ List.length added = n.
Proof.
  induction n as [|n IH]; intros current k.
  - exists []. cbn. now rewrite app_nil_r.
  - cbn [pushParticles]. unfold bind at 1.
    destruct (newParticle w h st rnd k) as [p k'].
    destruct (IH (current ++ [p]) k') as [added [E L]].
    exists (p :: added). rewrite E, <- app_assoc. cbn. auto.
Qed.

(** *** Depth *)

Lemma update_z (rnd : nat -> R) (w h sp sr : R) (st : VisualStyle)
    (p : Particle) (k : nat) :
  z (fst (update w h sp sr st p rnd k)) =
  match targetX p, targetY p with
  | Some _, Some _ => z p + (1.0 - z p) * 0.05
  | _, _ => z p
  end.
Proof.
  unfold update.
  destruct (targetX p), (targetY p); try reflexivity;
    destruct st; run_rand; repeat case_if; reflexivity.
Qed.

Lemma update_z_pos (rnd : nat -> R) (w h sp sr : R) (st : VisualStyle)
    (p : Particle) (k : nat) :
  0 < z p -> 0 < z (fst (update w h sp sr st p rnd k)).
Proof.
  intros Hz. rewrite update_z.
  destruct (targetX p), (targetY p); lra.
Qed.

Lemma animateParticles_z_pos (rnd : nat -> R) (config : VisualizerConfig)
    (w h sr : R) (textPoints : list TextPoint) :
  forall (ps : list Particle) (i t k : nat),
    Forall (fun p => 0 < z p) ps ->
    Forall (fun p => 0 < z p)
           (fst (animateParticles config w h sr textPoints i t ps rnd k)).
Proof.
  induction ps as [|p ps IH]; intros i t k HF.
  - constructor.
  - inversion HF as [|? ? Hp Hps]; subst.
    cbn [animateParticles]. unfold bind at 1.
    match goal with
    | |- context [update w h ?s sr ?st ?q rnd k] =>
        pose proof (update_z_pos rnd w h s sr st q k) as Hu;
        destruct (update w h s sr st q rnd k) as [p' k']
    end.
    unfold bind at 1.
    match goal with
    | |- context [animateParticles config w h sr textPoints ?i' ?t' ps rnd k'] =>
        specialize (IH i' t' k' Hps);
        destruct (animateParticles config w h sr textPoints i' t' ps rnd k')
          as [rest k'']
    end.
    cbn in *. constructor; auto. apply Hu.
    destruct (_ && _); cbn; exact Hp.
Qed.

Lemma frames_z_pos (rnd : nat -> R) (config : VisualizerConfig)
    (textPoints : list TextPoint) :
  forall (n : nat) (ps : list Particle) (k : nat),
    Forall (fun p => 0 < z p) ps ->
    Forall (fun p => 0 < z p) (fst (frames n config textPoints ps rnd k)).
Proof.
  induction n as [|n IH]; intros ps k HF; [exact HF|].
  cbn [frames]. unfold bind at 1, animate. unfold bind at 1.
  match goal with
  | |- context [animateParticles ?c ?w ?h ?sr ?tp 0%nat 0%nat ps rnd k] =>
      pose proof (animateParticles_z_pos rnd c w h sr tp ps 0 0 k HF) as HA;
      destruct (animateParticles c w h sr tp 0%nat 0%nat ps rnd k) as [ps' k']
  end.
  cbn in *. apply IH. exact HA.
Qed.

Lemma newParticle_z (rnd : nat -> R) (w h : R) (st : VisualStyle) (k : nat) :
  unit_draws rnd ->
  let p := fst (newParticle w h st rnd k) in
  if is_style st bokeh then 0.5 <= z p <= 2.0 else 0.5 <= z p <= 2.5.
Proof.
  intros Hu.
  destruct st; cbn;
    first [ pose proof (Hu (S (S k))); lra
          | pose proof (Hu (S (S (S (S (S (S (S (S k))))))))); lra ].
Qed.

(** *** Connections *)

Lemma Rabs_le_hypot (a b : R) : Rabs a <= sqrt (a * a + b * b).
Proof.
  rewrite <- (sqrt_Rsqr_abs a). unfold Rsqr.
  apply sqrt_le_1_alt. nra.
Qed.

Lemma Rabs_le_hypot' (a b : R) : Rabs b <= sqrt (a * a + b * b).
Proof. rewrite Rplus_comm. apply Rabs_le_hypot. Qed.

(** The edges leaving [i]: the bounding-box test never rejects a pair that
    the distance test accepts. *)
Lemma In_connectFrom (config : VisualizerConfig) (eff : R)
    (ps : list Particle) (i : nat) (pi : Particle) (e : Edge) :
  let limit := if text_active config then eff * 0.6 else eff in
  In e (connectFrom config eff ps i pi) <->
  exists j pj,
    nth_error ps j = Some pj /\ (i < j)%nat
    /\ distanceBetween pi pj < limit
    /\ e = mkEdge i j (1 - distanceBetween pi pj / limit).
Proof.
  intros limit. unfold connectFrom. rewrite in_flat_map. split.
  - intros [j [Hj He]]. apply in_seq in Hj.
    destruct (nth_error ps j) as [pj|] eqn:Ej; [|contradiction].
    fold limit in He.
    destruct (Rltb limit (Rabs (x pi - x pj)) || Rltb limit (Rabs (y pi - y pj)));
      [contradiction|].
    fold (distanceBetween pi pj) in He.
    destruct (Rltb (distanceBetween pi pj) limit) eqn:Ed; [|contradiction].
    apply Rltb_true in Ed. destruct He as [He|[]].
    exists j, pj. repeat split; auto. lia.
  - intros [j [pj [Ej [Hij [Hd He]]]]].
    exists j. split.
    + apply in_seq. assert (j < List.length ps)%nat
        by (apply nth_error_Some; congruence). lia.
    + rewrite Ej. fold limit.
      pose proof (Rabs_le_hypot (x pi - x pj) (y pi - y pj)) as Hx.
      pose proof (Rabs_le_hypot' (x pi - x pj) (y pi - y pj)) as Hy.
      fold (distanceBetween pi pj) in Hx, Hy.
      assert (E1 : Rltb limit (Rabs (x pi - x pj)) = false)
        by (apply Rltb_false; lra).
      assert (E2 : Rltb limit (Rabs (y pi - y pj)) = false)
        by (apply Rltb_false; lra).
      rewrite E1, E2. cbn [orb].
      fold (distanceBetween pi pj).
      apply Rltb_true in Hd. rewrite Hd. left. symmetry. exact He.
Qed.

Lemma In_connections (config : VisualizerConfig) (eff : R)
    (ps : list Particle) (e : Edge) :
  let limit := if text_active config then eff * 0.6 else eff in
  In e (connections config eff ps) <->
  exists i j pi pj,
    nth_error ps i = Some pi /\ nth_error ps j = Some pj /\ (i < j)%nat
    /\ ~ 1.8 < z pi
    /\ distanceBetween pi pj < limit
    /\ e = mkEdge i j (1 - distanceBetween pi pj / limit).
Proof.
  intros limit. unfold connections. rewrite in_flat_map. split.
  - intros [i [Hi He]].
    destruct (nth_error ps i) as [pi|] eqn:Ei; [|contradiction].
    destruct (Rltb 1.8 (z pi)) eqn:Ez; [contradiction|].
    apply Rltb_false in Ez.
    apply In_connectFrom in He. destruct He as [j [pj [Ej [Hij [Hd He]]]]].
    exists i, j, pi, pj. repeat split; auto. lra.
  - intros [i [j [pi [pj [Ei [Ej [Hij [Hz [Hd He]]]]]]]]].
    exists i. split.
    + apply in_seq. assert (i < List.length ps)%nat
        by (apply nth_error_Some; congruence). lia.
    + rewrite Ei.
      assert (Ez : Rltb 1.8 (z pi) = false) by (apply Rltb_false; lra).
      rewrite Ez. apply In_connectFrom. exists j, pj. auto.
Qed.

Lemma distLimitOf_eq (config : VisualizerConfig) :
  distLimitOf config =
  if text_active config then effectiveConnectionDistOf config * 0.6
  else effectiveConnectionDistOf config.
Proof. reflexivity. Qed.

Lemma connections_pair (config : VisualizerConfig) (eff : R) (p q : Particle) :
  connections config eff [p; q] =
  if Rltb 1.8 (z p) then []
  else
    let limit := if text_active config then eff * 0.6 else eff in
    if Rltb limit (Rabs (x p - x q)) || Rltb limit (Rabs (y p - y q)) then []
    else if Rltb (distanceBetween p q) limit
         then [mkEdge 0 1 (1 - distanceBetween p q / limit)]
         else [].
Proof.
  unfold connections, connectFrom, distanceBetween. cbn.
  repeat case_if; reflexivity.
Qed.

Lemma distance_on_axis (p q : Particle) (d : R) :
  0 <= d ->
  (x p = 0 /\ y p = 0 /\ x q = d /\ y q = 0)
  \/ (x p = d /\ y p = 0 /\ x q = 0 /\ y q = 0) ->
  distanceBetween p q = d.
Proof.
  intros Hd [[E1 [E2 [E3 E4]]]|[E1 [E2 [E3 E4]]]];
    unfold distanceBetween; rewrite E1, E2, E3, E4.
  - replace ((0 - d) * (0 - d) + (0 - 0) * (0 - 0)) with (d * d) by ring.
    now apply sqrt_square.
  - replace ((d - 0) * (d - 0) + (0 - 0) * (0 - 0)) with (d * d) by ring.
    now apply sqrt_square.
Qed.

Lemma pair_graph (config : VisualizerConfig) (p q : Particle) :
  connectionGraph config [p; q] =
  if Rltb 1.8 (z p) then []
  else if Rltb (distanceBetween p q) (distLimitOf config)
       then [mkEdge 0 1 (1 - distanceBetween p q / distLimitOf config)]
       else [].
Proof.
  unfold connectionGraph. rewrite connections_pair, <- distLimitOf_eq.
  destruct (Rltb 1.8 (z p)); [reflexivity|]. cbv zeta.
  pose proof (Rabs_le_hypot (x p - x q) (y p - y q)) as Hx.
  pose proof (Rabs_le_hypot' (x p - x q) (y p - y q)) as Hy.
  fold (distanceBetween p q) in Hx, Hy.
  destruct (Rltb (distanceBetween p q) (distLimitOf config)) eqn:Ed.
  - apply Rltb_true in Ed.
    assert (E1 : Rltb (distLimitOf config) (Rabs (x p - x q)) = false)
      by (apply Rltb_false; lra).
    assert (E2 : Rltb (distLimitOf config) (Rabs (y p - y q)) = false)
      by (apply Rltb_false; lra).
    now rewrite E1, E2.
  - now destruct (_ || _).
Qed.

Lemma distLimitOf_default (st : VisualStyle) (count : Z) :
  distLimitOf (configWith st count EmptyString) = 120.
Proof. unfold distLimitOf, scaleRatioOf, pixels. cbn. lra. Qed.

(** *** Frames without text points *)

(** Without text points every particle has its target cleared and is then
    updated. *)
Lemma animateParticles_background (rnd : nat -> R) (config : VisualizerConfig)
    (w h sr : R) :
  forall (ps : list Particle) (i t k : nat),
    Forall2
      (fun p p' =>
         exists k', p' = fst (update w h (speed config) sr (style config)
                                     (set_target p None None) rnd k'))
      ps (fst (animateParticles config w h sr [] i t ps rnd k)).
Proof.
  induction ps as [|p ps IH]; intros i t k.
  - constructor.
  - cbn [animateParticles List.length Nat.ltb Nat.leb andb]. unfold bind at 1.
    destruct (update w h (speed config) sr (style config)
                     (set_target p None None) rnd k) as [p' k'] eqn:Eu.
    unfold bind at 1.
    specialize (IH (S i) t k').
    destruct (animateParticles config w h sr [] (S i) t ps rnd k')
      as [rest k''].
    cbn in *. constructor; auto. exists k. now rewrite Eu.
Qed.

Section BackgroundFrames.

Variable rnd : nat -> R.
Variable config : VisualizerConfig.

(** A property [P] of particles and a relation [T] between a particle and
    its later state, kept by every update without target. *)
Variable P : Particle -> Prop.
Variable T : Particle -> Particle -> Prop.

Hypothesis T_refl : forall p, T p p.
Hypothesis T_trans : forall p q r, T p q -> T q r -> T p r.
Hypothesis P_kept : forall p q, P p -> T p q -> P q.
Hypothesis T_step :
  forall p k,
    P p ->
    T p (fst (update (pixels (width (resolution config)))
                     (pixels (height (resolution config)))
                     (speed config)
                     (scaleRatioOf (width (resolution config)))
                     (style config) (set_target p None None) rnd k)).

Lemma Forall2_T_refl (ps : list Particle) : Forall2 T ps ps.
Proof. induction ps; constructor; auto. Qed.

Lemma Forall2_T_trans :
  forall ps qs rs, Forall2 T ps qs -> Forall2 T qs rs -> Forall2 T ps rs.
Proof.
  intros ps qs rs H. revert rs.
  induction H as [|p q ps qs Hpq _ IH]; intros rs H2;
    inversion H2; subst; constructor; eauto.
Qed.

Lemma Forall_P_kept :
  forall ps qs, Forall P ps -> Forall2 T ps qs -> Forall P qs.
Proof.
  intros ps qs HP H. induction H as [|p q ps qs Hpq _ IH];
    [constructor|].
  inversion HP; subst. constructor; eauto.
Qed.

Lemma animate_background_T (ps : list Particle) (k : nat) :
  Forall P ps ->
  Forall2 T ps (particles (fst (animate config [] ps rnd k))).
Proof.
  intros HP. unfold animate. unfold bind at 1.
  pose proof (animateParticles_background rnd config
                (pixels (width (resolution config)))
                (pixels (height (resolution config)))
                (scaleRatioOf (width (resolution config))) ps 0 0 k) as HA.
  destruct (animateParticles config _ _ _ [] 0%nat 0%nat ps rnd k)
    as [ps' k'].
  cbn in *. clear k'.
  induction HA as [|p p' ps ps' [k' Hp] _ IH]; [constructor|].
  inversion HP; subst. constructor; auto.
Qed.

Lemma frames_background_T :
  forall (n : nat) (ps : list Particle) (k : nat),
    Forall P ps ->
    Forall2 T ps (fst (frames n config [] ps rnd k)).
Proof.
  induction n as [|n IH]; intros ps k HP.
  - apply Forall2_T_refl.
  - cbn [frames]. unfold bind at 1.
    pose proof (animate_background_T ps k HP) as HA.
    destruct (animate config [] ps rnd k) as [f k'].
    cbn [fst] in HA.
    apply Forall2_T_trans with (qs := particles f); [exact HA|].
    apply IH. eapply Forall_P_kept; eauto.
Qed.

End BackgroundFrames.

(** *** Vortex *)

Lemma scaleRatioOf_nonneg (cw : N) : 0 <= scaleRatioOf cw.
Proof. unfold scaleRatioOf. pose proof (pixels_nonneg cw). lra. Qed.

Lemma polar_distance (a r : R) :
  0 <= r -> sqrt ((cos a * r) * (cos a * r) + (sin a * r) * (sin a * r)) = r.
Proof.
  intros Hr.
  replace ((cos a * r) * (cos a * r) + (sin a * r) * (sin a * r))
    with ((Rsqr (sin a) + Rsqr (cos a)) * (r * r)) by (unfold Rsqr; ring).
  rewrite sin2_cos2, Rmult_1_l. now apply sqrt_square.
Qed.

Lemma update_vortex (rnd : nat -> R) (w h sp sr : R) (p : Particle) (k : nat) :
  targetX p = None ->
  let a := angle p + (0.005 * (sp * sr)) / z p in
  fst (update w h sp sr vortex p rnd k) =
  mkParticle (w / 2 + cos a * radius p) (h / 2 + sin a * radius p) (z p)
             (vx p) (vy p) (size p) a (radius p) (targetX p) (targetY p).
Proof. destruct p. cbn. intros E. subst. reflexivity. Qed.

Lemma vortex_step (rnd : nat -> R) (w h sp sr : R) (p : Particle) (k : nat) :
  targetX p = None -> 0 < sp -> 0 <= sr -> 0 < z p ->
  let p' := fst (update w h sp sr vortex p rnd k) in
  radius p' = radius p /\ angle p <= angle p' /\ z p' = z p
  /\ (0 <= radius p -> centerDistance w h p' = radius p).
Proof.
  intros E Hsp Hsr Hz p'. unfold p'. rewrite update_vortex by exact E.
  cbn. repeat split.
  - assert (0 <= 0.005 * (sp * sr) / z p).
    { apply Rmult_le_pos; [nra|]. left. now apply Rinv_0_lt_compat. }
    lra.
  - intros Hr. unfold centerDistance. cbn.
    match goal with
    | |- sqrt ?e = _ =>
        replace e with
          ((cos (angle p + 0.005 * (sp * sr) / z p) * radius p)
           * (cos (angle p + 0.005 * (sp * sr) / z p) * radius p)
           + (sin (angle p + 0.005 * (sp * sr) / z p) * radius p)
             * (sin (angle p + 0.005 * (sp * sr) / z p) * radius p))
          by ring
    end.
    now apply polar_distance.
Qed.

Lemma newParticle_vortex_radius (rnd : nat -> R) (w h : R) (k : nat) :
  let p := fst (newParticle w h vortex rnd k) in
  centerDistance w h p = radius p /\ 0 <= radius p.
Proof. cbn. split; [reflexivity | apply sqrt_pos]. Qed.

(** *** What holds of new particles holds of the whole array *)

Lemma pushParticles_Forall (rnd : nat -> R) (w h : R) (st : VisualStyle)
    (Q : Particle -> Prop) :
  (forall k, Q (fst (newParticle w h st rnd k))) ->
  forall (n : nat) (current : list Particle) (k : nat),
    Forall Q current ->
    Forall Q (fst (pushParticles n w h st current rnd k)).
Proof.
  intros Hnew. induction n as [|n IH]; intros current k HQ; [exact HQ|].
  cbn [pushParticles]. unfold bind at 1.
  pose proof (Hnew k) as Hp.
  destruct (newParticle w h st rnd k) as [p k'].
  apply IH. apply Forall_app. split; [exact HQ|]. constructor; [exact Hp|constructor].
Qed.

Lemma Forall_firstn_keeps {A} (Q : A -> Prop) (n : nat) (l : list A) :
  Forall Q l -> Forall Q (firstn n l).
Proof.
  revert l. induction n as [|n IH]; intros [|a l] H; cbn; auto.
  inversion H; subst. constructor; auto.
Qed.

Lemma initParticles_Forall (rnd : nat -> R) (config : VisualizerConfig)
    (w h : R) (Q : Particle -> Prop) :
  (forall k, Q (fst (newParticle w h (style config) rnd k))) ->
  forall (current l : list Particle) (k : nat),
    Forall Q current ->
    fst (initParticles config w h current rnd k) = Some l ->
    Forall Q l.
Proof.
  intros Hnew current l k HQ. unfold initParticles.
  destruct (Z.of_nat (List.length current) <? particleCount config)%Z.
  - unfold bind at 1. unfold bind at 1.
    pose proof (pushParticles_Forall rnd w h (style config) Q Hnew
                  (Z.to_nat (particleCount config
                             - Z.of_nat (List.length current)))
                  current k HQ) as HF.
    destruct (pushParticles _ w h (style config) current rnd k) as [l0 k'].
    cbn [fst] in HF. unfold ret at 1.
    destruct l0 as [|p l0].
    + unfold bind at 1.
      pose proof (pushParticles_Forall rnd w h (style config) Q Hnew
                    (Z.to_nat (particleCount config)) [] k' HF) as HF'.
      destruct (pushParticles _ w h (style config) [] rnd k') as [l1 k''].
      cbn. intros E. now inversion E; subst.
    + cbn. intros E. now inversion E; subst.
  - destruct (particleCount config <? Z.of_nat (List.length current))%Z.
    + destruct (particleCount config <? 0)%Z; [cbn; discriminate|].
      unfold bind at 1, ret at 1.
      pose proof (Forall_firstn_keeps Q (Z.to_nat (particleCount config))
                    current HQ) as HF.
      destruct (firstn _ current) as [|p l0].
      * unfold bind at 1.
        pose proof (pushParticles_Forall rnd w h (style config) Q Hnew
                      (Z.to_nat (particleCount config)) [] k HF) as HF'.
        destruct (pushParticles _ w h (style config) [] rnd k) as [l1 k''].
        cbn. intros E. now inversion E; subst.
      * cbn. intros E. now inversion E; subst.
    + unfold bind at 1, ret at 1.
      destruct current as [|p l0].
      * unfold bind at 1.
        pose proof (pushParticles_Forall rnd w h (style config) Q Hnew
                      (Z.to_nat (particleCount config)) [] k HQ) as HF'.
        destruct (pushParticles _ w h (style config) [] rnd k) as [l1 k''].
        cbn. intros E. now inversion E; subst.
      * cbn. intros E. now inversion E; subst.
Qed.

(** *** Matrix *)

Lemma update_matrix (rnd : nat -> R) (w h sp sr : R) (p : Particle) (k : nat) :
  targetX p = None ->
  let x1 := x p + vx p * (sp * sr) in
  let x2 := if Rltb x1 (-50) then w + 50 else x1 in
  let x3 := if Rltb (w + 50) x2 then -50 else x2 in
  let y1 := y p + vy p * (sp * sr) in
  let y2 := if Rltb (h + 50) y1 then -50 else y1 in
  fst (update w h sp sr matrix p rnd k) =
  mkParticle x3 y2 (z p) (vx p) (vy p) (size p) (angle p) (radius p)
             (targetX p) (targetY p).
Proof.
  destruct p. cbn. intros E. subst. cbn. unfold ret.
  repeat case_Rltb; reflexivity.
Qed.

Lemma matrix_step (rnd : nat -> R) (w h sp sr : R) (p : Particle) (k : nat) :
  targetX p = None ->
  vx p = 0 -> -50 <= x p <= w + 50 ->
  let p' := fst (update w h sp sr matrix p rnd k) in
  x p' = x p /\ vx p' = vx p.
Proof.
  intros E Hv Hx p'. unfold p'. rewrite update_matrix by exact E. cbn.
  rewrite Hv. replace (x p + 0 * (sp * sr)) with (x p) by ring.
  assert (E1 : Rltb (x p) (-50) = false) by (apply Rltb_false; lra).
  rewrite E1.
  assert (E2 : Rltb (w + 50) (x p) = false) by (apply Rltb_false; lra).
  rewrite E2. auto.
Qed.

Lemma newParticle_matrix (rnd : nat -> R) (w h : R) (k : nat) :
  unit_draws rnd -> 0 <= w ->
  let p := fst (newParticle w h matrix rnd k) in
  vx p = 0 /\ -50 <= x p <= w + 50.
Proof.
  intros Hu Hw. cbn. pose proof (Hu k). split; [reflexivity|]. nra.
Qed.

(** The first run of [initParticles], on the empty array. *)
Lemma initParticles_first (rnd : nat -> R) (config : VisualizerConfig)
    (w h : R) (k : nat) (n : nat) :
  particleCount config = Z.of_nat (S n) ->
  fst (initParticles config w h [] rnd k) =
  Some (fst (pushParticles (S n) w h (style config) [] rnd k)).
Proof.
  intros Hn. unfold initParticles. rewrite Hn.
  replace (Z.of_nat (List.length (@nil Particle)) <? Z.of_nat (S n))%Z
    with true by (symmetry; apply Z.ltb_lt; cbn [List.length]; lia).
  replace (Z.to_nat (Z.of_nat (S n) - Z.of_nat (List.length (@nil Particle))))
    with (S n) by (cbn [List.length]; lia).
  unfold bind at 1. unfold bind at 1.
  destruct (pushParticles_app rnd w h (style config) (S n) [] k)
    as [added [E L]].
  destruct (pushParticles (S n) w h (style config) [] rnd k) as [l k'].
  cbn [fst] in *. subst l. destruct added; [discriminate|]. reflexivity.
Qed.

(** *** Morph targets *)

Lemma update_targets (rnd : nat -> R) (w h sp sr : R) (st : VisualStyle)
    (p : Particle) (k : nat) :
  let p' := fst (update w h sp sr st p rnd k) in
  targetX p' = targetX p /\ targetY p' = targetY p.
Proof.
  destruct p as [x0 y0 z0 vx0 vy0 s0 a0 r0 [tx|] [ty|]], st;
    cbn; unfold ret; repeat case_Rltb; auto.
Qed.

Lemma animate_background_untargeted (rnd : nat -> R)
    (config : VisualizerConfig) (ps : list Particle) (k : nat) :
  Forall untargeted (particles (fst (animate config [] ps rnd k))).
Proof.
  unfold animate. unfold bind at 1.
  pose proof (animateParticles_background rnd config
                (pixels (width (resolution config)))
                (pixels (height (resolution config)))
                (scaleRatioOf (width (resolution config))) ps 0 0 k) as HA.
  destruct (animateParticles config _ _ _ [] 0%nat 0%nat ps rnd k)
    as [ps' k'].
  cbn in *. clear k'.
  induction HA as [|p p' ps ps' [k' Hp] _ IH]; constructor; auto.
  subst p'. unfold untargeted.
  destruct (update_targets rnd (pixels (width (resolution config)))
              (pixels (height (resolution config))) (speed config)
              (scaleRatioOf (width (resolution config))) (style config)
              (set_target p None None) k') as [E1 E2].
  split; [exact E1 | exact E2].
Qed.

Lemma frames_background_untargeted (rnd : nat -> R)
    (config : VisualizerConfig) :
  forall (n : nat) (ps : list Particle) (k : nat),
    Forall untargeted ps ->
    Forall untargeted (fst (frames n config [] ps rnd k)).
Proof.
  induction n as [|n IH]; intros ps k HU; [exact HU|].
  cbn [frames]. unfold bind at 1.
  pose proof (animate_background_untargeted rnd config ps k) as HA.
  destruct (animate config [] ps rnd k) as [f k'].
  now apply IH.
Qed.

Lemma animate_edges (rnd : nat -> R) (config : VisualizerConfig)
    (textPoints : list TextPoint) (ps : list Particle) (k : nat) :
  let f := fst (animate config textPoints ps rnd k) in
  edges f =
  if is_style (style config) network || text_active config
  then connectionGraph config (particles f)
  else [].
Proof.
  unfold animate, bind.
  destruct (animateParticles config _ _ _ textPoints 0%nat 0%nat ps rnd k)
    as [ps' k'].
  reflexivity.
Qed.

(** *** A surface of width 0 *)

Lemma scaleRatioOf_zero : scaleRatioOf 0 = 0.
Proof. unfold scaleRatioOf, pixels. cbn. lra. Qed.

Lemma or_else_nonzero (v : R) : or_else v 1 <> 0.
Proof. unfold or_else. destruct (Req_dec_T v 0); [lra | assumption]. Qed.

Lemma connections_none (config : VisualizerConfig) (eff : R)
    (ps : list Particle) :
  eff <= 0 -> connections config eff ps = [].
Proof.
  intros He.
  destruct (connections config eff ps) as [|e l] eqn:E; [reflexivity|].
  assert (Hin : In e (connections config eff ps)) by (rewrite E; now left).
  apply In_connections in Hin.
  destruct Hin as [i [j [pi [pj [_ [_ [_ [_ [Hd _]]]]]]]]].
  pose proof (sqrt_pos ((x pi - x pj) * (x pi - x pj)
                        + (y pi - y pj) * (y pi - y pj))) as Hs.
  fold (distanceBetween pi pj) in Hs.
  destruct (text_active config); lra.
Qed.

(** The morph update at scale ratio 0. *)
Lemma update_morph_still (rnd : nat -> R) (w h sp : R) (st : VisualStyle)
    (p : Particle) (tX tY : R) (k : nat) :
  targetX p = Some tX -> targetY p = Some tY ->
  let p' := fst (update w h sp 0 st p rnd k) in
  x p' = x p /\ y p' = y p.
Proof.
  destruct p. cbn. intros E1 E2. subst. cbn. split; ring.
Qed.

(** Case analysis on the comparisons of a goal, closing the branches that
    the hypotheses rule out. *)
Ltac settle_Rltb :=
  repeat
    match goal with
    | |- context [Rltb ?a ?b] =>
        lazymatch a with
        | context [if _ then _ else _] => fail
        | _ =>
            lazymatch b with
            | context [if _ then _ else _] => fail
            | _ =>
                let E := fresh "E" in
                destruct (Rltb a b) eqn:E;
                [ apply Rltb_true in E; try (exfalso; lra)
                | apply Rltb_false in E; try (exfalso; lra) ];
                cbn
            end
        end
    end.

Lemma newParticle_fields (rnd : nat -> R) (w h : R) (st : VisualStyle)
    (k : nat) :
  let p := fst (newParticle w h st rnd k) in
  x p = rnd k * w /\ y p = rnd (S k) * h
  /\ targetX p = None /\ targetY p = None
  /\ angle p = atan2 (rnd (S k) * h - h / 2) (rnd k * w - w / 2)
  /\ radius p = sqrt ((rnd k * w - w / 2) * (rnd k * w - w / 2)
                      + (rnd (S k) * h - h / 2) * (rnd (S k) * h - h / 2)).
Proof. destruct st; cbn; repeat split; reflexivity. Qed.

(** At scale ratio 0 the linear styles leave a particle inside the wrap
    margins where it is. *)
Lemma linear_still (rnd : nat -> R) (w h sp : R) (st : VisualStyle)
    (p : Particle) (k : nat) :
  st = network \/ st = bokeh \/ st = matrix ->
  targetX p = None ->
  -50 <= x p <= w + 50 -> -50 <= y p <= h + 50 ->
  let p' := fst (update w h sp 0 st p rnd k) in
  x p' = x p /\ y p' = y p.
Proof.
  destruct p as [x0 y0 z0 vx0 vy0 s0 a0 r0 tx ty]. cbn.
  intros Hst E Hx Hy. subst tx.
  destruct Hst as [->|[->| ->]]; cbn; unfold ret;
    settle_Rltb; split; ring.
Qed.

Lemma nova_still (rnd : nat -> R) (w h sp : R) (p : Particle) (k : nat) :
  targetX p = None ->
  -100 <= x p <= w + 100 -> -100 <= y p <= h + 100 ->
  let p' := fst (update w h sp 0 nova p rnd k) in
  x p' = x p /\ y p' = y p.
Proof.
  destruct p as [x0 y0 z0 vx0 vy0 s0 a0 r0 tx ty]. cbn.
  intros E Hx Hy. subst tx. cbn.
  settle_Rltb; split; ring.
Qed.

(** A vortex particle constructed for a surface of width 0 sits on the
    vertical axis through the centre, and the update puts it back there. *)
Lemma vortex_still (rnd : nat -> R) (h sp : R) (k k' : nat) :
  let p := fst (newParticle 0 h vortex rnd k) in
  let p' := fst (update 0 h sp 0 vortex p rnd k') in
  x p' = x p /\ y p' = y p.
Proof.
  intros p p'.
  destruct (newParticle_fields rnd 0 h vortex k)
    as [Ex [Ey [Etx [_ [Ea Er]]]]].
  fold p in Ex, Ey, Etx, Ea, Er.
  unfold p'. rewrite update_vortex by exact Etx. cbn [x y].
  replace (angle p + 0.005 * (sp * 0) / z p) with (angle p)
    by (unfold Rdiv; ring).
  rewrite Ex, Ey, Ea, Er.
  set (dy := rnd (S k) * h - h / 2).
  replace (rnd k * 0 - 0 / 2) with 0 by lra.
  replace (0 * 0 + dy * dy) with (Rsqr dy) by (unfold Rsqr; ring).
  rewrite sqrt_Rsqr_abs.
  unfold atan2.
  destruct (Rlt_dec 0 0) as [C|_]; [lra|].
  destruct (Rlt_dec 0 dy) as [Hp|Hnp].
  - rewrite cos_PI2, sin_PI2, Rabs_right by lra. unfold dy. split; lra.
  - destruct (Rlt_dec dy 0) as [Hn|Hnn].
    + rewrite cos_neg, sin_neg, cos_PI2, sin_PI2, Rabs_left by lra.
      unfold dy. split; lra.
    + assert (Hz : dy = 0) by lra.
      rewrite Hz, Rabs_R0. unfold dy in Hz. split; lra.
Qed.

Lemma width_zero_still (rnd : nat -> R) (h sp : R) (st : VisualStyle)
    (k k' : nat) :
  unit_draws rnd -> 0 <= h ->
  let p := fst (newParticle 0 h st rnd k) in
  let p' := fst (update 0 h sp 0 st p rnd k') in
  x p' = x p /\ y p' = y p.
Proof.
  intros Hu Hh p p'.
  destruct (newParticle_fields rnd 0 h st k) as [Ex [Ey [Etx _]]].
  fold p in Ex, Ey, Etx.
  pose proof (Hu (S k)) as Hr.
  assert (Hx : x p = 0) by (rewrite Ex; ring).
  assert (Hy : 0 <= y p <= h) by (rewrite Ey; nra).
  destruct st.
  - apply linear_still; auto; lra.
  - apply linear_still; auto; lra.
  - apply linear_still; auto; lra.
  - apply vortex_still.
  - apply nova_still; auto; lra.
Qed.

(** A particle kept from a wider surface is not inside the wrap margins of
    a surface of width 0: the network update wraps it to x = -50. *)
Lemma stale_particle_wraps :
  let p := particleAt 1000 500 1 in
  x (fst (update 0 1080 1 (scaleRatioOf 0) network p rnd0 0%nat)) = -50.
Proof.
  cbn. rewrite scaleRatioOf_zero. unfold ret. settle_Rltb; reflexivity.
Qed.

(** *** The scan loops *)



Lemma ratio_unit (a s : R) : 0 <= a -> a < s -> 0 <= a / s < 1.
Proof.
  intros Ha Hs. assert (Hpos : 0 < s) by lra.
  pose proof (Rinv_0_lt_compat s Hpos) as Hi.
  pose proof (Rinv_r s ltac:(lra)) as Hr.
  unfold Rdiv. split; nra.
Qed.

Lemma samplingGap_ge_2 (fontSize : Z) : (2 <= samplingGap fontSize)%Z.
Proof. unfold samplingGap. lia. Qed.




(** *** The shuffle *)

Lemma length_assign {A} (l : list A) :
  forall (i : nat) (v : A), List.length (assign l i v) = List.length l.
Proof.
  induction l as [|a l IH]; intros [|i] v; cbn; auto.
Qed.

Lemma Forall_assign {A} (Q : A -> Prop) (l : list A) :
  forall (i : nat) (v : A), Forall Q l -> Q v -> Forall Q (assign l i v).
Proof.
  induction l as [|a l IH]; intros [|i] v HQ Hv; cbn; auto;
    inversion HQ; subst; constructor; auto.
Qed.

Lemma length_swap {A} (l : list A) (i j : nat) :
  List.length (swap l i j) = List.length l.
Proof.
  unfold swap. destruct (nth_error l i), (nth_error l j); auto.
  now rewrite !length_assign.
Qed.

Lemma Forall_swap {A} (Q : A -> Prop) (l : list A) (i j : nat) :
  Forall Q l -> Forall Q (swap l i j).
Proof.
  intros HQ. unfold swap.
  destruct (nth_error l i) as [a|] eqn:Ei; auto.
  destruct (nth_error l j) as [b|] eqn:Ej; auto.
  pose proof (proj1 (Forall_forall Q l) HQ) as H.
  apply Forall_assign; [apply Forall_assign|]; auto.
  - apply H. eapply nth_error_In; eauto.
  - apply H. eapply nth_error_In; eauto.
Qed.

Lemma shuffle_keeps (rnd : nat -> R) (Q : TextPoint -> Prop) :
  forall (i : nat) (points : list TextPoint) (k : nat),
    let l := fst (shuffle i points rnd k) in
    List.length l = List.length points /\ (Forall Q points -> Forall Q l).
Proof.
  induction i as [|i IH]; intros points k; [cbn; auto|].
  cbn [shuffle]. unfold bind at 1, random at 1.
  destruct (IH (swap points (S i) (Z.to_nat (Rfloor (rnd k * (INR (S i) + 1)))))
               (S k)) as [HL HF].
  cbv zeta in *. split.
  - rewrite HL. apply length_swap.
  - intros HQ. apply HF. now apply Forall_swap.
Qed.

(** *** The sampler *)

Lemma scanHeightOf_pos (config : VisualizerConfig) :
  (0 < width (resolution config))%N -> (0 < height (resolution config))%N ->
  0 < pixels (width (resolution config))
  /\ 0 < pixels (height (resolution config))
  /\ 0 < scanHeightOf config.
Proof.
  intros Hw Hh.
  assert (Hw' : 0 < pixels (width (resolution config)))
    by (unfold pixels; apply IZR_lt; lia).
  assert (Hh' : 0 < pixels (height (resolution config)))
    by (unfold pixels; apply IZR_lt; lia).
  repeat split; auto.
  unfold scanHeightOf, scanWidth.
  apply Rdiv_lt_0_compat; [lra|]. now apply Rdiv_lt_0_compat.
Qed.

Lemma processText_eq (b : Browser) (config : VisualizerConfig) :
  processText b config =
  let points := scanPixels (imageDataOf b config) (gapOf b config)
                           (scanHeightOf config)
                           (pixels (width (resolution config)))
                           (pixels (height (resolution config))) in
  shuffle (List.length points - 1) points.
Proof. reflexivity. Qed.


Lemma Rfloor_le (r : R) : IZR (Rfloor r) <= r.
Proof.
  unfold Rfloor. rewrite minus_IZR. destruct (archimed r) as [_ H]. lra.
Qed.


(** ** The claims *)

(** C1: for every non-negative integer N, the reconciliation with target
    count N succeeds and leaves exactly N particles, whatever the prior
    size: a shorter collection is extended at its end and keeps its
    particles, a longer one is cut to its first N elements, one of size N
    is unchanged. *)
Theorem initParticles_reaches_target :
  forall (rnd : nat -> R) (config : VisualizerConfig) (w h : R)
         (current : list Particle) (k : nat) (n : nat),
    particleCount config = Z.of_nat n ->
    exists l,
      fst (initParticles config w h current rnd k) = Some l
      /\ List.length l = n
      /\ ((List.length current < n)%nat ->
          exists added, l = current ++ added
                        /\ List.length added = (n - List.length current)%nat)
      /\ ((n < List.length current)%nat -> l = firstn n current)
      /\ (List.length current = n -> l = current).
Proof.
  intros rnd config w h current k n Hn.
  unfold initParticles. rewrite Hn.
  destruct (Z.ltb_spec (Z.of_nat (List.length current)) (Z.of_nat n)) as [Hlt|Hge].
  - (* growth *)
    unfold bind at 1. unfold bind at 1.
    destruct (pushParticles_app rnd w h (style config)
                (Z.to_nat (Z.of_nat n - Z.of_nat (List.length current)))
                current k) as [added [E L]].
    destruct (pushParticles _ w h (style config) current rnd k) as [l k'].
    cbn in E. subst l. unfold ret at 1.
    assert (La : List.length added = (n - List.length current)%nat) by lia.
    destruct (current ++ added) as [|p l'] eqn:El.
    + apply (f_equal (@List.length Particle)) in El.
      rewrite length_app in El. cbn in El. lia.
    + exists (p :: l'). cbn [fst ret]. rewrite <- El.
      repeat split; auto; try lia.
      * rewrite length_app. lia.
      * intros _. exists added. auto.
  - destruct (Z.ltb_spec (Z.of_nat n) (Z.of_nat (List.length current))) as [Hgt|Hle].
    + (* shrink *)
      destruct (Z.ltb_spec (Z.of_nat n) 0) as [Hneg|_]; [lia|].
      rewrite Nat2Z.id. unfold bind at 1, ret at 1.
      assert (Lf : List.length (firstn n current) = n)
        by (rewrite length_firstn; lia).
      destruct (firstn n current) as [|p l'] eqn:Ef.
      * cbn in Lf. subst n. cbn. exists []. repeat split; auto; lia.
      * exists (p :: l'). cbn. repeat split; auto; lia.
    + (* same size *)
      assert (Heq : List.length current = n) by lia.
      unfold bind at 1, ret at 1.
      destruct current as [|p l'].
      * cbn in Heq. subst n. cbn. exists []. repeat split; auto; lia.
      * exists (p :: l'). cbn [fst ret]. repeat split; auto; lia.
Qed.

(** The theorem on the first reconciliation towards three particles. *)
Lemma initParticles_reaches_target_witness :
  exists l,
    fst (initParticles (configWith matrix 3 EmptyString) 1920 1080 [] rnd0 0%nat)
      = Some l
    /\ List.length l = 3%nat.
Proof.
  destruct (initParticles_reaches_target rnd0 (configWith matrix 3 EmptyString)
              1920 1080 [] 0%nat 3%nat eq_refl) as [l [E [L _]]].
  exists l. split; assumption.
Defined.

(** C2: a particle is constructed with z in [0.5, 2.0] when the style is
    bokeh and in [0.5, 2.5] otherwise, so with z > 0; every update step,
    with or without a morph target and for every style, keeps z > 0; hence
    z > 0 after any number of frames. *)
Theorem depth_positive :
  forall (rnd : nat -> R),
    unit_draws rnd ->
    (forall (w h : R) (st : VisualStyle) (k : nat),
        let p := fst (newParticle w h st rnd k) in
        0 < z p
        /\ (st = bokeh -> 0.5 <= z p <= 2.0)
        /\ (st <> bokeh -> 0.5 <= z p <= 2.5))
    /\ (forall (w h sp sr : R) (st : VisualStyle) (p : Particle) (k : nat),
           0 < z p -> 0 < z (fst (update w h sp sr st p rnd k)))
    /\ (forall (config : VisualizerConfig) (textPoints : list TextPoint)
               (n : nat) (ps : list Particle) (k : nat),
           Forall (fun p => 0 < z p) ps ->
           Forall (fun p => 0 < z p)
                  (fst (frames n config textPoints ps rnd k))).
Proof.
  intros rnd Hu. split; [|split].
  - intros w h st k p.
    pose proof (newParticle_z rnd w h st k Hu) as Hz. fold p in Hz.
    unfold is_style in Hz.
    destruct (VisualStyle_eq_dec st bokeh) as [E|NE].
    + repeat split; intros; first [lra | contradiction].
    + repeat split; intros; first [lra | contradiction].
  - intros. now apply update_z_pos.
  - intros. now apply frames_z_pos.
Qed.

(** The theorem on a bokeh particle built from draws that are all 0. *)
Lemma depth_positive_witness :
  let p := fst (newParticle 1920 1080 bokeh rnd0 0%nat) in
  0 < z p /\ 0.5 <= z p <= 2.0.
Proof.
  destruct (depth_positive rnd0 rnd0_unit) as [Hnew _].
  destruct (Hnew 1920 1080 bokeh 0%nat) as [Hz [Hb _]].
  split; [exact Hz | exact (Hb eq_refl)].
Defined.

(** C3: in the connection graph a pair (i, j), i < j, is left out on account
    of depth only when particle i has z > 1.8; the depth of particle j is
    never tested.  A pair that is not left out is connected exactly when its
    Euclidean distance is strictly below the limit, which is
    connectionDistance x scaleRatio, times 0.6 when the text is not empty;
    the edge is stroked with alpha (1 - distance / limit) x 0.25. *)
Theorem connection_graph_rule :
  forall (config : VisualizerConfig) (ps : list Particle),
    let limit := distLimitOf config in
    (forall e : Edge,
        In e (connectionGraph config ps) <->
        exists i j pi pj,
          nth_error ps i = Some pi /\ nth_error ps j = Some pj /\ (i < j)%nat
          /\ ~ 1.8 < z pi
          /\ distanceBetween pi pj < limit
          /\ e = mkEdge i j (1 - distanceBetween pi pj / limit))
    /\ (forall e : Edge,
           In e (connectionGraph config ps) ->
           exists pi pj,
             nth_error ps (src e) = Some pi /\ nth_error ps (dst e) = Some pj
             /\ strokeAlpha e = (1 - distanceBetween pi pj / limit) * 0.25).
Proof.
  intros config ps limit.
  assert (H : forall e : Edge,
        In e (connectionGraph config ps) <->
        exists i j pi pj,
          nth_error ps i = Some pi /\ nth_error ps j = Some pj /\ (i < j)%nat
          /\ ~ 1.8 < z pi
          /\ distanceBetween pi pj < limit
          /\ e = mkEdge i j (1 - distanceBetween pi pj / limit)).
  { intros e. unfold connectionGraph, limit. rewrite distLimitOf_eq.
    apply In_connections. }
  split; [exact H|].
  intros e He. apply H in He.
  destruct He as [i [j [pi [pj [Ei [Ej [_ [_ [_ He]]]]]]]]].
  exists pi, pj. subst e. cbn. auto.
Qed.

(** C4, the claim as stated fails: with the particle at (0,0) of depth 1
    first and the particle at (60,0) of depth 2 second, under a limit of
    120, the second particle has z > 1.8 and the edge is stroked all the
    same. *)
Lemma deep_second_particle_is_connected :
  let config := configWith network 2 EmptyString in
  let p := particleAt 0 0 1 in
  let q := particleAt 60 0 2 in
  (1.8 < z p \/ 1.8 < z q)
  /\ connectionGraph config [p; q] = [mkEdge 0 1 (1 - 60 / 120)]
  /\ connectionGraph config [p; q] <> [].
Proof.
  intros config p q.
  assert (Hd : distanceBetween p q = 60).
  { apply distance_on_axis; [lra|]. left. cbn. auto. }
  assert (G : connectionGraph config [p; q] = [mkEdge 0 1 (1 - 60 / 120)]).
  { rewrite pair_graph. unfold config. rewrite distLimitOf_default, Hd.
    assert (E1 : Rltb 1.8 (z p) = false) by (apply Rltb_false; cbn; lra).
    assert (E2 : Rltb 60 120 = true) by (apply Rltb_true; lra).
    now rewrite E1, E2. }
  split; [right; cbn; lra|]. split; [exact G|]. rewrite G. discriminate.
Qed.

(** C4, amended: for the particle array holding a particle at (0,0) and one
    at (d,0), d >= 0, in either order: when d < limit and the first
    (lower-indexed) particle has z <= 1.8, the edge between them is
    stroked, with opacity 1 - d / limit, whatever the depth of the second;
    when d >= limit there is no edge; when the first particle has z > 1.8
    there is no edge, whatever the distance. *)
Theorem two_particle_connection :
  forall (config : VisualizerConfig) (p q : Particle) (d : R),
    0 <= d ->
    (x p = 0 /\ y p = 0 /\ x q = d /\ y q = 0)
    \/ (x p = d /\ y p = 0 /\ x q = 0 /\ y q = 0) ->
    let limit := distLimitOf config in
    let g := connectionGraph config [p; q] in
    (d < limit -> z p <= 1.8 -> g = [mkEdge 0 1 (1 - d / limit)])
    /\ (limit <= d -> g = [])
    /\ (1.8 < z p -> g = []).
Proof.
  intros config p q d Hd Hpos limit g.
  pose proof (distance_on_axis p q d Hd Hpos) as E.
  unfold g. rewrite pair_graph, E. fold limit.
  split; [|split].
  - intros Hlt Hz.
    assert (E1 : Rltb 1.8 (z p) = false) by (apply Rltb_false; lra).
    assert (E2 : Rltb d limit = true) by (apply Rltb_true; lra).
    now rewrite E1, E2.
  - intros Hge.
    assert (E2 : Rltb d limit = false) by (apply Rltb_false; lra).
    rewrite E2. now destruct (Rltb 1.8 (z p)).
  - intros Hz.
    assert (E1 : Rltb 1.8 (z p) = true) by (apply Rltb_true; lra).
    now rewrite E1.
Qed.

(** The theorem on two particles 60 apart under a limit of 120. *)
Lemma two_particle_connection_witness :
  let config := configWith network 2 EmptyString in
  let p := particleAt 0 0 1 in
  let q := particleAt 60 0 1 in
  60 < distLimitOf config
  /\ connectionGraph config [p; q] = [mkEdge 0 1 (1 - 60 / distLimitOf config)].
Proof.
  intros config p q.
  assert (Hl : 60 < distLimitOf config)
    by (unfold config; rewrite distLimitOf_default; lra).
  split; [exact Hl|].
  assert (Hd : 0 <= 60) by lra.
  assert (Hpos : (x p = 0 /\ y p = 0 /\ x q = 60 /\ y q = 0)
                 \/ (x p = 60 /\ y p = 0 /\ x q = 0 /\ y q = 0))
    by (left; cbn; auto).
  destruct (two_particle_connection config p q 60 Hd Hpos) as [H _].
  apply H; [exact Hl | cbn; lra].
Defined.

(** C5: in the vortex style, with a speed multiplier > 0, the update of a
    particle without morph target and with z > 0 keeps its radius and does
    not decrease its angle, and puts it at distance radius from the centre
    of the surface; a particle is constructed at distance radius from the
    centre; so over any number of frames without text points radius (and
    with it the distance from the centre) stays the same and the angle
    never decreases. *)
Theorem vortex_radius_constant :
  forall (rnd : nat -> R) (config : VisualizerConfig),
    style config = vortex ->
    0 < speed config ->
    let w := pixels (width (resolution config)) in
    let h := pixels (height (resolution config)) in
    let sr := scaleRatioOf (width (resolution config)) in
    (forall (p : Particle) (k : nat),
        0 < z p -> targetX p = None -> targetY p = None ->
        let p' := fst (update w h (speed config) sr vortex p rnd k) in
        radius p' = radius p
        /\ angle p <= angle p'
        /\ (0 <= radius p -> centerDistance w h p' = radius p))
    /\ (forall k : nat,
           let p := fst (newParticle w h vortex rnd k) in
           centerDistance w h p = radius p /\ 0 <= radius p)
    /\ (forall (n : nat) (ps : list Particle) (k : nat),
           Forall (fun p => 0 < z p) ps ->
           Forall2 (fun p p' => radius p' = radius p /\ angle p <= angle p'
                                /\ z p' = z p)
                   ps (fst (frames n config [] ps rnd k))).
Proof.
  intros rnd config Hst Hsp w h sr.
  assert (Hsr : 0 <= sr) by apply scaleRatioOf_nonneg.
  split; [|split].
  - intros p k Hz Etx _ p'.
    destruct (vortex_step rnd w h (speed config) sr p k Etx Hsp Hsr Hz)
      as [H1 [H2 [_ H3]]].
    auto.
  - intros k. apply newParticle_vortex_radius.
  - intros n ps k HP.
    apply frames_background_T with (P := fun p => 0 < z p); auto.
    + intros p. repeat split; lra.
    + intros p q r [H1 [H2 H3]] [H4 [H5 H6]]. repeat split; try congruence; lra.
    + intros p q Hz [_ [_ E]]. lra.
    + intros p k' Hz. rewrite Hst.
      destruct (vortex_step rnd w h (speed config) sr
                  (set_target p None None) k' eq_refl Hsp Hsr Hz)
        as [H1 [H2 [H3 _]]].
      auto.
Qed.

(** The theorem on one update of a particle at (100, 100). *)
Lemma vortex_radius_constant_witness :
  let config := configWith vortex 1 EmptyString in
  let p := particleAt 100 100 1 in
  let p' := fst (update 1920 1080 1 (scaleRatioOf 1920) vortex p rnd0 0%nat) in
  radius p' = radius p /\ angle p <= angle p'.
Proof.
  intros config p p'.
  assert (Hsp : 0 < speed config) by (cbn; lra).
  destruct (vortex_radius_constant rnd0 config eq_refl Hsp) as [H _].
  assert (Hz : 0 < z p) by (cbn; lra).
  destruct (H p 0%nat Hz eq_refl eq_refl) as [H1 [H2 _]].
  split; [exact H1 | exact H2].
Defined.

(** C6: with style matrix, 50 particles, speed 1, resolution 1920 x 1080 and
    no text, the first reconciliation builds 50 particles with vx = 0; after
    any number of frames every particle has the x it was constructed with;
    and an update that moves a particle without target to a y above
    height + 50 sets its y to -50 in that same update. *)
Theorem matrix_x_unchanged :
  forall (rnd : nat -> R),
    unit_draws rnd ->
    let config := configWith matrix 50 EmptyString in
    let w := pixels (width (resolution config)) in
    let h := pixels (height (resolution config)) in
    let sr := scaleRatioOf (width (resolution config)) in
    (forall k0 : nat,
        exists ps0,
          fst (initParticles config w h [] rnd k0) = Some ps0
          /\ List.length ps0 = 50%nat
          /\ Forall (fun p => vx p = 0) ps0
          /\ forall (n k : nat),
               Forall2 (fun p p' => x p' = x p)
                       ps0 (fst (frames n config [] ps0 rnd k)))
    /\ (forall (p : Particle) (k : nat),
           targetX p = None ->
           h + 50 < y p + vy p * (speed config * sr) ->
           y (fst (update w h (speed config) sr matrix p rnd k)) = -50).
Proof.
  intros rnd Hu config w h sr. split.
  - intros k0.
    exists (fst (pushParticles 50 w h matrix [] rnd k0)).
    assert (Hw : 0 <= w) by apply pixels_nonneg.
    assert (HP : Forall (fun p => vx p = 0 /\ -50 <= x p <= w + 50)
                        (fst (pushParticles 50 w h matrix [] rnd k0))).
    { apply pushParticles_Forall; [|constructor].
      intros k. now apply newParticle_matrix. }
    split; [|split; [|split]].
    + now rewrite (initParticles_first rnd config w h k0 49).
    + destruct (pushParticles_app rnd w h matrix 50 [] k0) as [added [E L]].
      rewrite E. exact L.
    + eapply Forall_impl; [|exact HP]. cbn. intros p [H _]. exact H.
    + intros n k.
      eapply Forall2_impl;
        [| apply frames_background_T
             with (P := fun p => vx p = 0 /\ -50 <= x p <= w + 50)
                  (T := fun p p' => x p' = x p /\ vx p' = vx p)].
      * cbn. intros p p' [H _]. exact H.
      * auto.
      * intros p q r [H1 H2] [H3 H4]. split; congruence.
      * intros p q [H1 H2] [H3 H4]. rewrite H3, H4. auto.
      * intros p k' [H1 H2].
        apply (matrix_step rnd w h (speed config) sr
                 (set_target p None None) k' eq_refl H1 H2).
      * exact HP.
  - intros p k E Hy. rewrite update_matrix by exact E. cbn [y].
    assert (E1 : Rltb (h + 50) (y p + vy p * (speed config * sr)) = true)
      by (apply Rltb_true; exact Hy).
    now rewrite E1.
Qed.

(** The theorem on a particle that falls from y = 1130 by 7. *)
Lemma matrix_x_unchanged_witness :
  let p := particleAt 10 1130 1 in
  y (fst (update 1920 1080 1 (scaleRatioOf 1920) matrix
                 (set_vy p 7) rndHalf 0%nat)) = -50.
Proof.
  intros p.
  destruct (matrix_x_unchanged rndHalf rndHalf_unit) as [_ H].
  apply (H (set_vy p 7) 0%nat eq_refl).
  unfold scaleRatioOf, pixels. cbn. lra.
Defined.

(** C7: when the text is the empty string, the text effect leaves an empty
    set of text points; a frame over an empty set of text points leaves
    every particle with targetX and targetY null, so after any number of
    frames (at least one) no particle has a target; and in such a frame
    connections are stroked only when the style is network. *)
Theorem empty_text_no_morph :
  forall (rnd : nat -> R) (b : Browser) (config : VisualizerConfig)
         (prev : list TextPoint),
    text config = EmptyString ->
    (forall k : nat, fst (textEffect b config prev rnd k) = [])
    /\ (forall (ps : list Particle) (k : nat),
           let f := fst (animate config [] ps rnd k) in
           Forall (fun p => targetX p = None /\ targetY p = None) (particles f)
           /\ edges f = (if is_style (style config) network
                         then connectionGraph config (particles f)
                         else []))
    /\ (forall (n : nat) (ps : list Particle) (k : nat),
           Forall (fun p => targetX p = None /\ targetY p = None)
                  (fst (frames (S n) config [] ps rnd k))).
Proof.
  intros rnd b config prev Ht.
  assert (Ha : text_active config = false)
    by (unfold text_active; now rewrite Ht).
  split; [|split].
  - intros k. unfold textEffect. now rewrite Ha.
  - intros ps k f. split.
    + apply animate_background_untargeted.
    + unfold f. rewrite animate_edges, Ha. now rewrite orb_false_r.
  - intros n ps k. cbn [frames]. unfold bind at 1.
    pose proof (animate_background_untargeted rnd config ps k) as HA.
    destruct (animate config [] ps rnd k) as [f k'].
    now apply frames_background_untargeted.
Qed.

(** The theorem on a bokeh configuration without text. *)
Lemma empty_text_no_morph_witness :
  fst (textEffect blankBrowser (configWith bokeh 20 EmptyString) [] rnd0 0%nat)
  = []
  /\ edges (fst (animate (configWith bokeh 20 EmptyString) []
                         [particleAt 1 1 1] rnd0 0%nat)) = [].
Proof.
  destruct (empty_text_no_morph rnd0 blankBrowser
              (configWith bokeh 20 EmptyString) [] eq_refl) as [H1 [H2 _]].
  split; [apply H1|].
  destruct (H2 [particleAt 1 1 1] 0%nat) as [_ E]. exact E.
Defined.

(** C9, the claim as stated fails: on a 1920 x 0 surface (height 0) a matrix
    particle constructed there at y = 0 is moved to y = 2 by its first
    update, at speed 1. *)
Lemma zero_height_matrix_moves :
  let config := configOn zeroHeight matrix in
  let w := pixels (width (resolution config)) in
  let h := pixels (height (resolution config)) in
  let p := fst (newParticle w h matrix rnd0 0%nat) in
  let p' := fst (update w h (speed config)
                        (scaleRatioOf (width (resolution config)))
                        matrix p rnd0 0%nat) in
  height (resolution config) = 0%N /\ y p = 0 /\ y p' = 2 /\ y p' <> y p.
Proof.
  intros config w h p p'.
  assert (E0 : y p = 0) by (cbn; unfold rnd0; ring).
  assert (E2 : y p' = 2).
  { unfold p'. rewrite update_matrix by reflexivity. cbn [y].
    assert (Ey : y p + vy p * (speed config
                               * scaleRatioOf (width (resolution config))) = 2).
    { rewrite E0. cbn. unfold rnd0, scaleRatioOf, pixels. cbn. lra. }
    rewrite Ey.
    assert (E : Rltb (h + 50) 2 = false).
    { apply Rltb_false. unfold h, pixels. cbn. lra. }
    now rewrite E. }
  split; [reflexivity|]. split; [exact E0|]. split; [exact E2|].
  rewrite E0, E2. lra.
Qed.

(** C9, amended: on a surface of width 0, whatever its height, the scale
    ratio and the connection distance are 0, so no connection is stroked
    and nothing is divided by the distance limit; the divisor of the nova
    update is never 0; the morph update leaves the position of a particle
    unchanged, for every style; and for every style the update leaves a
    particle constructed for that surface at its position. *)
Theorem zero_width_no_motion :
  forall (rnd : nat -> R) (config : VisualizerConfig),
    unit_draws rnd ->
    width (resolution config) = 0%N ->
    let w := pixels (width (resolution config)) in
    let h := pixels (height (resolution config)) in
    let sr := scaleRatioOf (width (resolution config)) in
    sr = 0
    /\ effectiveConnectionDistOf config = 0
    /\ (forall ps : list Particle, connectionGraph config ps = [])
    /\ (forall v : R, or_else v 1 <> 0)
    /\ (forall (st : VisualStyle) (p : Particle) (tX tY : R) (k : nat),
           targetX p = Some tX -> targetY p = Some tY ->
           let p' := fst (update w h (speed config) sr st p rnd k) in
           x p' = x p /\ y p' = y p)
    /\ (forall (st : VisualStyle) (k k' : nat),
           let p := fst (newParticle w h st rnd k) in
           let p' := fst (update w h (speed config) sr st p rnd k') in
           x p' = x p /\ y p' = y p).
Proof.
  intros rnd config Hu Hw w h sr.
  assert (Hsr : sr = 0) by (unfold sr; rewrite Hw; apply scaleRatioOf_zero).
  assert (Hw0 : w = 0) by (unfold w; rewrite Hw; reflexivity).
  assert (He : effectiveConnectionDistOf config = 0).
  { unfold effectiveConnectionDistOf. fold sr. rewrite Hsr. ring. }
  split; [exact Hsr|]. split; [exact He|].
  split; [|split; [|split]].
  - intros ps. unfold connectionGraph. apply connections_none. lra.
  - apply or_else_nonzero.
  - intros st p tX tY k E1 E2. rewrite Hsr.
    now apply update_morph_still with (tX := tX) (tY := tY).
  - intros st k k'. rewrite Hsr, Hw0.
    apply width_zero_still; [exact Hu | apply pixels_nonneg].
Qed.

(** The theorem on a network particle of a 0 x 1080 surface. *)
Lemma zero_width_no_motion_witness :
  let config := configOn zeroWidth network in
  let p := fst (newParticle 0 1080 network rndHalf 0%nat) in
  let p' := fst (update 0 1080 1 (scaleRatioOf 0) network p rndHalf 7%nat) in
  connectionGraph config [p; p'] = [] /\ x p' = x p /\ y p' = y p.
Proof.
  intros config p p'.
  destruct (zero_width_no_motion rndHalf config rndHalf_unit eq_refl)
    as [_ [_ [Hg [_ [_ Hs]]]]].
  split; [apply Hg|]. apply (Hs network 0%nat 7%nat).
Defined.



(** C10: a particle constructed with style network has vx and vy of the same
    sign, both strictly positive or both strictly negative, each of
    magnitude in [0.1, 0.6]. *)
Theorem network_velocity_same_sign :
  forall (rnd : nat -> R) (width height : R) (k : nat),
    unit_draws rnd ->
    let p := fst (newParticle width height network rnd k) in
    (0.1 <= vx p <= 0.6 /\ 0.1 <= vy p <= 0.6) \/
    (-0.6 <= vx p <= -0.1 /\ -0.6 <= vy p <= -0.1).
Proof.
  intros rnd width height k Hu. cbn.
  pose proof (Hu (S (S (S (S (S k)))))) as H1.
  pose proof (Hu (S (S (S (S (S (S k))))))) as H2.
  destruct (Rgt_dec _ _); [left | right]; lra.
Qed.

(** The theorem on a particle built from draws that are all 1/2. *)
Lemma network_velocity_same_sign_witness :
  let p := fst (newParticle 1920 1080 network rndHalf 0%nat) in
  (0.1 <= vx p <= 0.6 /\ 0.1 <= vy p <= 0.6)
  \/ (-0.6 <= vx p <= -0.1 /\ -0.6 <= vy p <= -0.1).
Proof.
  exact (network_velocity_same_sign rndHalf 1920 1080 0%nat rndHalf_unit).
Defined.

(** ** Further properties *)

(** *** The particle loop of a frame, particle by particle *)

Lemma textSlot_S (i : nat) :
  textSlot (S i) = if (i mod 5 =? 0)%nat then textSlot i else S (textSlot i).
Proof.
  unfold textSlot.
  pose proof (Nat.div_mod_eq i 5).
  pose proof (Nat.mod_upper_bound i 5 ltac:(lia)).
  pose proof (Nat.div_mod_eq (i + 4) 5).
  pose proof (Nat.mod_upper_bound (i + 4) 5 ltac:(lia)).
  pose proof (Nat.div_mod_eq (S i + 4) 5).
  pose proof (Nat.mod_upper_bound (S i + 4) 5 ltac:(lia)).
  destruct (Nat.eqb_spec (i mod 5) 0); lia.
Qed.

Lemma animateParticles_nth (rnd : nat -> R) (config : VisualizerConfig)
    (w h sr : R) (textPoints : list TextPoint) :
  forall (ps : list Particle) (i0 t k j : nat) (p : Particle),
    List.length textPoints = 0%nat \/ t = textSlot i0 ->
    nth_error ps j = Some p ->
    exists k',
      nth_error (fst (animateParticles config w h sr textPoints i0 t ps rnd k))
                j
      = Some (fst (update w h (speed config) sr (style config)
                          (withAssigned textPoints (i0 + j) p) rnd k')).
Proof.
  induction ps as [|q ps IH]; intros i0 t k j p Ht Hj.
  - destruct j; discriminate.
  - cbn [animateParticles]. unfold bind at 1.
    set (morphs := (0 <? List.length textPoints)%nat
                   && negb (i0 mod 5 =? 0)%nat).
    set (q1 := if morphs then _ else set_target q None None).
    destruct (update w h (speed config) sr (style config) q1 rnd k)
      as [q' k1] eqn:Eu.
    unfold bind at 1.
    set (t1 := if morphs then S t else t).
    assert (Ht1 : List.length textPoints = 0%nat \/ t1 = textSlot (S i0)).
    { destruct Ht as [H0|Ht]; [now left|].
      destruct (0 <? List.length textPoints)%nat eqn:E0.
      - right. unfold t1, morphs. rewrite textSlot_S, Ht. try rewrite E0.
        cbn [andb].
        now destruct (i0 mod 5 =? 0)%nat.
      - left. apply Nat.ltb_ge in E0. lia. }
    destruct j as [|j].
    + cbn in Hj. inversion Hj; subst q.
      destruct (animateParticles config w h sr textPoints (S i0) t1 ps rnd k1)
        as [rest k2].
      exists k. cbn [fst ret nth_error]. f_equal.
      replace (withAssigned textPoints (i0 + 0) p) with q1;
        [now rewrite Eu|].
      unfold q1, withAssigned, assignedPoint.
      rewrite Nat.add_0_r. fold morphs.
      destruct morphs eqn:Em; [|reflexivity].
      destruct Ht as [H0|Ht].
      * unfold morphs in Em. rewrite H0 in Em. discriminate.
      * now rewrite Ht.
    + cbn in Hj.
      destruct (IH (S i0) t1 k1 j p Ht1 Hj) as [k' Hk'].
      destruct (animateParticles config w h sr textPoints (S i0) t1 ps rnd k1)
        as [rest k2].
      exists k'. cbn [fst ret nth_error] in *.
      replace (i0 + S j)%nat with (S i0 + j)%nat by lia. exact Hk'.
Qed.

Lemma animateParticles_length (rnd : nat -> R) (config : VisualizerConfig)
    (w h sr : R) (textPoints : list TextPoint) :
  forall (ps : list Particle) (i t k : nat),
    List.length (fst (animateParticles config w h sr textPoints i t ps rnd k))
    = List.length ps.
Proof.
  induction ps as [|p ps IH]; intros i t k; [reflexivity|].
  cbn [animateParticles]. unfold bind at 1.
  match goal with
  | |- context [update w h ?s sr ?st ?q rnd k] =>
      destruct (update w h s sr st q rnd k) as [p' k']
  end.
  unfold bind at 1.
  match goal with
  | |- context [animateParticles config w h sr textPoints ?i' ?t' ps rnd k'] =>
      specialize (IH i' t' k');
      destruct (animateParticles config w h sr textPoints i' t' ps rnd k')
        as [rest k'']
  end.
  cbn in *. now rewrite IH.
Qed.

Lemma animate_particles_eq (rnd : nat -> R) (config : VisualizerConfig)
    (textPoints : list TextPoint) (ps : list Particle) (k : nat) :
  particles (fst (animate config textPoints ps rnd k)) =
  fst (animateParticles config
         (pixels (width (resolution config)))
         (pixels (height (resolution config)))
         (scaleRatioOf (width (resolution config)))
         textPoints 0 0 ps rnd k).
Proof.
  unfold animate, bind.
  destruct (animateParticles config _ _ _ textPoints 0%nat 0%nat ps rnd k)
    as [ps' k'].
  reflexivity.
Qed.

(** A frame updates particle [i] after giving it the target of its slot. *)
Lemma animate_nth (rnd : nat -> R) (config : VisualizerConfig)
    (textPoints : list TextPoint) (ps : list Particle) (k i : nat)
    (p : Particle) :
  nth_error ps i = Some p ->
  exists k',
    nth_error (particles (fst (animate config textPoints ps rnd k))) i
    = Some (fst (update (pixels (width (resolution config)))
                        (pixels (height (resolution config)))
                        (speed config)
                        (scaleRatioOf (width (resolution config)))
                        (style config)
                        (withAssigned textPoints i p) rnd k')).
Proof.
  intros Hi. rewrite animate_particles_eq.
  destruct (animateParticles_nth rnd config
              (pixels (width (resolution config)))
              (pixels (height (resolution config)))
              (scaleRatioOf (width (resolution config)))
              textPoints ps 0 0 k i p (or_intror eq_refl) Hi) as [k' Hk'].
  exists k'. exact Hk'.
Qed.

Lemma assignedPoint_spec (textPoints : list TextPoint) (i : nat) :
  textPoints <> [] ->
  ((i mod 5 = 0)%nat -> assignedPoint textPoints i = None)
  /\ ((i mod 5 <> 0)%nat ->
      exists t,
        nth_error textPoints (textSlot i mod List.length textPoints) = Some t
        /\ assignedPoint textPoints i = Some t).
Proof.
  intros Hne.
  assert (Hlen : (0 < List.length textPoints)%nat)
    by (destruct textPoints; [contradiction | cbn; lia]).
  unfold assignedPoint.
  replace (0 <? List.length textPoints)%nat with true
    by (symmetry; now apply Nat.ltb_lt).
  cbn [andb]. split.
  - intros E. now rewrite E.
  - intros NE. apply Nat.eqb_neq in NE. rewrite NE. cbn [negb].
    eexists. split; [|reflexivity].
    apply nth_error_nth'. apply Nat.mod_upper_bound. lia.
Qed.

(** X1: a frame never changes the number of particles, over any number of
    frames and with or without text points. *)
Theorem frames_keep_particle_count :
  forall (rnd : nat -> R) (config : VisualizerConfig)
         (textPoints : list TextPoint) (n : nat) (ps : list Particle)
         (k : nat),
    List.length (fst (frames n config textPoints ps rnd k)) = List.length ps.
Proof.
  intros rnd config textPoints.
  induction n as [|n IH]; intros ps k; [reflexivity|].
  cbn [frames]. unfold bind at 1.
  pose proof (animate_particles_eq rnd config textPoints ps k) as E.
  destruct (animate config textPoints ps rnd k) as [f k'].
  cbn [fst] in E. rewrite IH, E. apply animateParticles_length.
Qed.

(** X2: when there are text points, a frame leaves the particles whose
    index is a multiple of 5 without target, and gives every other particle
    i the text point of index (i - ceil(i / 5)) modulo the number of text
    points: the particles that morph take the text points in turn. *)
Theorem frame_target_assignment :
  forall (rnd : nat -> R) (config : VisualizerConfig)
         (textPoints : list TextPoint) (ps : list Particle) (k i : nat)
         (p' : Particle),
    textPoints <> [] ->
    nth_error (particles (fst (animate config textPoints ps rnd k))) i
    = Some p' ->
    ((i mod 5 = 0)%nat -> targetX p' = None /\ targetY p' = None)
    /\ ((i mod 5 <> 0)%nat ->
        exists t,
          nth_error textPoints (textSlot i mod List.length textPoints) = Some t
          /\ targetX p' = Some (pt_x t) /\ targetY p' = Some (pt_y t)).
Proof.
  intros rnd config textPoints ps k i p' Hne Hp'.
  assert (Hi : (i < List.length ps)%nat).
  { rewrite <- (animateParticles_length rnd config
                  (pixels (width (resolution config)))
                  (pixels (height (resolution config)))
                  (scaleRatioOf (width (resolution config)))
                  textPoints ps 0 0 k), <- animate_particles_eq.
    apply nth_error_Some. congruence. }
  destruct (nth_error ps i) as [p|] eqn:Ep;
    [|apply nth_error_None in Ep; lia].
  destruct (animate_nth rnd config textPoints ps k i p Ep) as [k' Hk'].
  rewrite Hp' in Hk'.
  match type of Hk' with
  | _ = Some (fst (update ?w ?h ?s ?sr ?st ?q rnd k')) =>
      destruct (update_targets rnd w h s sr st q k') as [EX EY];
      assert (E : p' = fst (update w h s sr st q rnd k')) by congruence
  end.
  rewrite <- E in EX, EY.
  destruct (assignedPoint_spec textPoints i Hne) as [H0 H1].
  split.
  - intros Hm. rewrite EX, EY. unfold withAssigned. rewrite (H0 Hm). auto.
  - intros Hm. destruct (H1 Hm) as [t [Ht Ha]].
    exists t. rewrite EX, EY. unfold withAssigned. rewrite Ha. auto.
Qed.

(** The theorem on three particles and two text points. *)
Lemma frame_target_assignment_witness :
  let ps := [particleAt 0 0 1; particleAt 10 10 1; particleAt 20 20 1] in
  let textPoints := [mkPoint 5 6; mkPoint 7 8] in
  exists p',
    nth_error (particles (fst (animate (configWith network 3 "AB") textPoints
                                       ps rnd0 0%nat))) 2 = Some p'
    /\ targetX p' = Some 7 /\ targetY p' = Some 8.
Proof.
  intros ps textPoints.
  assert (Hne : textPoints <> []) by discriminate.
  destruct (animate_nth rnd0 (configWith network 3 "AB") textPoints ps
              0%nat 2%nat (particleAt 20 20 1) eq_refl) as [k' Hk'].
  eexists. split; [exact Hk'|].
  destruct (frame_target_assignment rnd0 (configWith network 3 "AB")
              textPoints ps 0%nat 2%nat _ Hne Hk') as [_ H].
  destruct (H ltac:(cbn; discriminate)) as [t [Ht [HX HY]]].
  cbn in Ht. inversion Ht; subst t. split; assumption.
Defined.

(** *** The morph update *)

Lemma withAssigned_z (textPoints : list TextPoint) (i : nat) (p : Particle) :
  z (withAssigned textPoints i p) = z p.
Proof. reflexivity. Qed.

Lemma update_assigned_z (rnd : nat -> R) (w h sp sr : R) (st : VisualStyle)
    (textPoints : list TextPoint) (i : nat) (p : Particle) (k : nat) :
  textPoints <> [] ->
  let p' := fst (update w h sp sr st (withAssigned textPoints i p) rnd k) in
  ((i mod 5 <> 0)%nat -> z p' - 1 = 0.95 * (z p - 1))
  /\ ((i mod 5 = 0)%nat -> z p' = z p).
Proof.
  intros Hne p'. unfold p'. rewrite update_z.
  destruct (assignedPoint_spec textPoints i Hne) as [H0 H1].
  split; intros Hm.
  - destruct (H1 Hm) as [t [_ Ha]].
    unfold withAssigned. rewrite Ha. cbn. lra.
  - unfold withAssigned. rewrite (H0 Hm). reflexivity.
Qed.

(** X3: while there are text points, the depth of a particle that morphs
    (index not a multiple of 5) approaches 1 geometrically, z - 1 being
    multiplied by 0.95 in every frame, whatever the style; the depth of a
    background particle (index a multiple of 5) never changes. *)
Theorem morph_depth_converges :
  forall (rnd : nat -> R) (config : VisualizerConfig)
         (textPoints : list TextPoint),
    textPoints <> [] ->
    forall (n : nat) (ps : list Particle) (k i : nat) (p : Particle),
      nth_error ps i = Some p ->
      exists p',
        nth_error (fst (frames n config textPoints ps rnd k)) i = Some p'
        /\ ((i mod 5 <> 0)%nat -> z p' - 1 = 0.95 ^ n * (z p - 1))
        /\ ((i mod 5 = 0)%nat -> z p' = z p).
Proof.
  intros rnd config textPoints Hne.
  induction n as [|n IH]; intros ps k i p Hi.
  - exists p. cbn. repeat split; auto. intros _. lra.
  - cbn [frames]. unfold bind at 1.
    destruct (animate_nth rnd config textPoints ps k i p Hi) as [k' Hk'].
    destruct (animate config textPoints ps rnd k) as [f k1].
    cbn [fst] in Hk'.
    match type of Hk' with
    | _ = Some (fst (update ?w ?h ?s ?sr ?st _ rnd k')) =>
        destruct (update_assigned_z rnd w h s sr st textPoints i p k' Hne)
          as [Hm Hb]
    end.
    destruct (IH (particles f) k1 i _ Hk') as [p' [Hp' [Hm' Hb']]].
    exists p'. split; [exact Hp'|]. split.
    + intros Hi5. rewrite (Hm' Hi5), (Hm Hi5). cbn [pow]. ring.
    + intros Hi5. rewrite (Hb' Hi5). exact (Hb Hi5).
Qed.

(** The theorem on the second of two particles, after three frames. *)
Lemma morph_depth_converges_witness :
  exists p',
    nth_error (fst (frames 3 (configWith vortex 2 "A") [mkPoint 5 6]
                           [particleAt 0 0 2; particleAt 9 9 2] rnd0 0%nat))
              1 = Some p'
    /\ z p' - 1 = 0.95 ^ 3 * (2 - 1).
Proof.
  assert (Hne : [mkPoint 5 6] <> []) by discriminate.
  destruct (morph_depth_converges rnd0 (configWith vortex 2 "A")
              [mkPoint 5 6] Hne 3%nat
              [particleAt 0 0 2; particleAt 9 9 2] 0%nat 1%nat
              (particleAt 9 9 2) eq_refl) as [p' [Hp' [Hm _]]].
  exists p'. split; [exact Hp'|]. apply Hm. cbn. discriminate.
Defined.

(** X4: a morph update multiplies the offset between the particle and its
    target by 1 - 0.05 x effectiveSpeed on each axis and adds a jitter of
    at most 0.25 x scaleRatio; so for 0 < 0.05 x effectiveSpeed < 2 the
    particle closes in on the target up to the jitter. *)
Theorem morph_offset_contracts :
  forall (rnd : nat -> R) (w h sp sr : R) (st : VisualStyle) (p : Particle)
         (tX tY : R) (k : nat),
    unit_draws rnd ->
    0 <= sr ->
    targetX p = Some tX -> targetY p = Some tY ->
    let p' := fst (update w h sp sr st p rnd k) in
    Rabs (x p' - tX) <= Rabs (1 - 0.05 * (sp * sr)) * Rabs (x p - tX) + 0.25 * sr
    /\ Rabs (y p' - tY) <= Rabs (1 - 0.05 * (sp * sr)) * Rabs (y p - tY) + 0.25 * sr.
Proof.
  intros rnd w h sp sr st p tX tY k Hu Hsr EX EY.
  destruct p as [x0 y0 z0 vx0 vy0 s0 a0 r0 tx ty]. cbn in EX, EY. subst.
  cbn.
  pose proof (Hu k) as H1. pose proof (Hu (S k)) as H2.
  assert (J : forall r, 0 <= r < 1 -> Rabs ((r - 0.5) * 0.5 * sr) <= 0.25 * sr).
  { intros r Hr. rewrite !Rabs_mult.
    rewrite (Rabs_right 0.5) by lra. rewrite (Rabs_right sr) by lra.
    assert (Rabs (r - 0.5) <= 0.5) by (apply Rabs_le; lra).
    nra. }
  split.
  - replace (x0 + (tX - x0) * 0.05 * (sp * sr) + (rnd k - 0.5) * 0.5 * sr - tX)
      with ((1 - 0.05 * (sp * sr)) * (x0 - tX) + (rnd k - 0.5) * 0.5 * sr)
      by ring.
    eapply Rle_trans; [apply Rabs_triang|].
    rewrite Rabs_mult. pose proof (J _ H1). lra.
  - replace (y0 + (tY - y0) * 0.05 * (sp * sr) + (rnd (S k) - 0.5) * 0.5 * sr - tY)
      with ((1 - 0.05 * (sp * sr)) * (y0 - tY) + (rnd (S k) - 0.5) * 0.5 * sr)
      by ring.
    eapply Rle_trans; [apply Rabs_triang|].
    rewrite Rabs_mult. pose proof (J _ H2). lra.
Qed.

(** The theorem on a particle at the origin that heads for (100, 50). *)
Lemma morph_offset_contracts_witness :
  let p := set_target (particleAt 0 0 2) (Some 100) (Some 50) in
  let p' := fst (update 1920 1080 1 1 network p rndHalf 0%nat) in
  Rabs (x p' - 100) <= Rabs (1 - 0.05 * (1 * 1)) * Rabs (x p - 100) + 0.25 * 1.
Proof.
  intros p p'.
  assert (Hsr : 0 <= 1) by lra.
  destruct (morph_offset_contracts rndHalf 1920 1080 1 1 network p 100 50
              0%nat rndHalf_unit Hsr eq_refl eq_refl) as [H _].
  exact H.
Defined.

(** *** The style updates *)

(** Case analysis on every comparison of the goal. *)
Ltac split_Rltb :=
  repeat
    match goal with
    | |- context [Rltb ?a ?b] =>
        lazymatch a with
        | context [if _ then _ else _] => fail
        | _ =>
            lazymatch b with
            | context [if _ then _ else _] => fail
            | _ =>
                let E := fresh "E" in
                destruct (Rltb a b) eqn:E;
                [ apply Rltb_true in E | apply Rltb_false in E ];
                cbn
            end
        end
    end.

(** X5: a linear update without target leaves x within [-50, width + 50];
    it leaves y within [-50, height + 50] for network, at or above -50 for
    bokeh and at or below height + 50 for matrix. *)
Theorem linear_update_wraps :
  forall (rnd : nat -> R) (w h sp sr : R) (st : VisualStyle) (p : Particle)
         (k : nat),
    0 <= w -> 0 <= h ->
    targetX p = None ->
    let p' := fst (update w h sp sr st p rnd k) in
    (st = network -> -50 <= x p' <= w + 50 /\ -50 <= y p' <= h + 50)
    /\ (st = bokeh -> -50 <= x p' <= w + 50 /\ -50 <= y p')
    /\ (st = matrix -> -50 <= x p' <= w + 50 /\ y p' <= h + 50).
Proof.
  intros rnd w h sp sr st p k Hw Hh E.
  destruct p as [x0 y0 z0 vx0 vy0 s0 a0 r0 tx ty]. cbn in E. subst tx.
  cbv zeta. split; [|split]; intros ->; cbn; unfold ret;
    split_Rltb; repeat split; lra.
Qed.

(** The theorem on a network particle that leaves the surface to the
    right. *)
Lemma linear_update_wraps_witness :
  let p := set_vx (particleAt 1960 10 1) 20 in
  let p' := fst (update 1920 1080 1 1 network p rnd0 0%nat) in
  -50 <= x p' <= 1920 + 50 /\ -50 <= y p' <= 1080 + 50.
Proof.
  intros p p'.
  assert (Hw : 0 <= 1920) by lra. assert (Hh : 0 <= 1080) by lra.
  destruct (linear_update_wraps rnd0 1920 1080 1 1 network p 0%nat Hw Hh
              eq_refl) as [H _].
  exact (H eq_refl).
Defined.



Lemma update_nova_velocity (rnd : nat -> R) (w h sp sr : R) (p : Particle)
    (k : nat) :
  targetX p = None ->
  let dx := x p - w / 2 in
  let dy := y p - h / 2 in
  let dist := or_else (sqrt (dx * dx + dy * dy)) 1 in
  let p' := fst (update w h sp sr nova p rnd k) in
  vx p' = dx / dist * 2 /\ vy p' = dy / dist * 2.
Proof.
  destruct p as [x0 y0 z0 vx0 vy0 s0 a0 r0 tx ty]. cbn. intros E. subst tx.
  cbn. split_Rltb; split; reflexivity.
Qed.

(** X7: a nova update without target gives the particle a velocity of
    length 2 pointing away from the centre of the surface; a particle that
    sits exactly on the centre gets velocity 0 and stays there. *)
Theorem nova_velocity :
  forall (rnd : nat -> R) (w h sp sr : R) (p : Particle) (k : nat),
    0 <= w -> 0 <= h ->
    targetX p = None ->
    let dx := x p - w / 2 in
    let dy := y p - h / 2 in
    let p' := fst (update w h sp sr nova p rnd k) in
    ((dx <> 0 \/ dy <> 0) ->
     vx p' * vx p' + vy p' * vy p' = 4
     /\ 0 <= vx p' * dx /\ 0 <= vy p' * dy)
    /\ (dx = 0 /\ dy = 0 ->
        vx p' = 0 /\ vy p' = 0 /\ x p' = x p /\ y p' = y p).
Proof.
  intros rnd w h sp sr p k Hw Hh E dx dy p'.
  destruct (update_nova_velocity rnd w h sp sr p k E) as [EVX EVY].
  fold dx dy p' in EVX, EVY.
  split.
  - intros Hoff.
    assert (Hsq : 0 < dx * dx + dy * dy) by (destruct Hoff; nra).
    pose proof (sqrt_lt_R0 _ Hsq) as Hd.
    pose proof (sqrt_sqrt (dx * dx + dy * dy) ltac:(lra)) as Hss.
    set (d := sqrt (dx * dx + dy * dy)) in *.
    assert (Ed : or_else d 1 = d).
    { unfold or_else. destruct (Req_dec_T d 0); [lra | reflexivity]. }
    rewrite Ed in EVX, EVY.
    pose proof (Rinv_0_lt_compat d Hd) as Hi.
    assert (Hdi : d * / d = 1) by (apply Rinv_r; lra).
    rewrite EVX, EVY. unfold Rdiv. repeat split.
    + replace (dx * / d * 2 * (dx * / d * 2) + dy * / d * 2 * (dy * / d * 2))
        with (4 * (dx * dx + dy * dy) * (/ d * / d)) by ring.
      rewrite <- Hss.
      replace (4 * (d * d) * (/ d * / d)) with (4 * (d * / d) * (d * / d))
        by ring.
      rewrite Hdi. ring.
    + replace (dx * / d * 2 * dx) with (2 * (dx * dx) * / d) by ring.
      apply Rmult_le_pos; [nra | lra].
    + replace (dy * / d * 2 * dy) with (2 * (dy * dy) * / d) by ring.
      apply Rmult_le_pos; [nra | lra].
  - intros [Hx Hy].
    assert (EVX0 : vx p' = 0) by (rewrite EVX, Hx; unfold Rdiv; ring).
    assert (EVY0 : vy p' = 0) by (rewrite EVY, Hy; unfold Rdiv; ring).
    split; [exact EVX0|]. split; [exact EVY0|].
    unfold dx in Hx. unfold dy in Hy.
    unfold p'.
    destruct p as [x0 y0 z0 vx0 vy0 s0 a0 r0 tx ty]. cbn in E, Hx, Hy. subst tx.
    cbn.
    replace (x0 - w / 2) with 0 by lra. replace (y0 - h / 2) with 0 by lra.
    replace (0 / or_else (sqrt (0 * 0 + 0 * 0)) 1 * 2) with 0
      by (unfold Rdiv; ring).
    replace (x0 + 0 * (sp * sr)) with x0 by ring.
    replace (y0 + 0 * (sp * sr)) with y0 by ring.
    settle_Rltb. split; reflexivity.
Qed.

(** The theorem on a particle to the right of the centre. *)
Lemma nova_velocity_witness :
  let p := particleAt 1000 540 1 in
  let p' := fst (update 1920 1080 1 1 nova p rnd0 0%nat) in
  vx p' * vx p' + vy p' * vy p' = 4.
Proof.
  intros p p'.
  assert (Hw : 0 <= 1920) by lra. assert (Hh : 0 <= 1080) by lra.
  destruct (nova_velocity rnd0 1920 1080 1 1 p 0%nat Hw Hh eq_refl)
    as [H _].
  apply H. left. cbn. lra.
Defined.

(** *** The connection loops *)

Lemma NoDup_flat_map_key {A B} (f : A -> list B) (key : B -> A) :
  (forall a, NoDup (f a)) ->
  (forall a b, In b (f a) -> key b = a) ->
  forall l : list A, NoDup l -> NoDup (flat_map f l).
Proof.
  intros Hf Hkey. induction l as [|a l IH]; intros Hl; [constructor|].
  inversion Hl as [|? ? Ha Hl']; subst. cbn.
  apply NoDup_app; auto.
  intros b Hb Hb'. apply in_flat_map in Hb'. destruct Hb' as [a' [Ha' Hb']].
  apply Hkey in Hb. apply Hkey in Hb'. congruence.
Qed.

Lemma NoDup_connectFrom (config : VisualizerConfig) (eff : R)
    (ps : list Particle) (i : nat) (pi : Particle) :
  NoDup (connectFrom config eff ps i pi).
Proof.
  unfold connectFrom.
  apply NoDup_flat_map_key with (key := dst); [| |apply seq_NoDup].
  - intros j. destruct (nth_error ps j); [|constructor].
    repeat case_if; try (constructor; [intros [] | constructor]);
      constructor.
  - intros j e. destruct (nth_error ps j); [|contradiction].
    repeat case_if; cbn; try contradiction;
      intros [<-|[]]; reflexivity.
Qed.

Lemma NoDup_connections (config : VisualizerConfig) (eff : R)
    (ps : list Particle) :
  NoDup (connections config eff ps).
Proof.
  unfold connections.
  apply NoDup_flat_map_key with (key := src); [| |apply seq_NoDup].
  - intros i. destruct (nth_error ps i); [|constructor].
    case_if; [constructor | apply NoDup_connectFrom].
  - intros i e. destruct (nth_error ps i) as [pi|]; [|contradiction].
    case_if; [contradiction|].
    intros He. apply In_connectFrom in He.
    destruct He as [j [pj [_ [_ [_ ->]]]]]. reflexivity.
Qed.

(** X8: every connection of a frame joins a lower to a higher index of the
    particle array, exists only under a positive distance limit, and has an
    opacity in (0, 1], so a stroke alpha in (0, 0.25]. *)
Theorem connection_edges_well_formed :
  forall (config : VisualizerConfig) (ps : list Particle) (e : Edge),
    In e (connectionGraph config ps) ->
    (src e < dst e < List.length ps)%nat
    /\ 0 < distLimitOf config
    /\ 0 < opacity e <= 1
    /\ 0 < strokeAlpha e <= 0.25.
Proof.
  intros config ps e He.
  unfold connectionGraph in He. apply In_connections in He.
  rewrite <- distLimitOf_eq in He.
  destruct He as [i [j [pi [pj [Ei [Ej [Hij [_ [Hd ->]]]]]]]]].
  unfold strokeAlpha. cbn [src dst opacity].
  assert (Hj : (j < List.length ps)%nat) by (apply nth_error_Some; congruence).
  pose proof (sqrt_pos ((x pi - x pj) * (x pi - x pj)
                        + (y pi - y pj) * (y pi - y pj))) as H0.
  fold (distanceBetween pi pj) in H0.
  assert (Hl : 0 < distLimitOf config) by lra.
  destruct (ratio_unit _ _ H0 Hd) as [R0 R1].
  repeat split; try lia; lra.
Qed.

(** The theorem on the edge between two particles 60 apart. *)
Lemma connection_edges_well_formed_witness :
  let e := mkEdge 0 1 (1 - 60 / 120) in
  0 < opacity e <= 1 /\ 0 < strokeAlpha e <= 0.25.
Proof.
  intros e.
  set (config := configWith network 2 EmptyString).
  set (ps := [particleAt 0 0 1; particleAt 60 0 1]).
  assert (G : connectionGraph config ps = [e]).
  { unfold ps. rewrite pair_graph.
    assert (Hd : distanceBetween (particleAt 0 0 1) (particleAt 60 0 1) = 60).
    { apply distance_on_axis; [lra|]. left. cbn. auto. }
    unfold config. rewrite distLimitOf_default, Hd.
    assert (E1 : Rltb 1.8 (z (particleAt 0 0 1)) = false)
      by (apply Rltb_false; cbn; lra).
    assert (E2 : Rltb 60 120 = true) by (apply Rltb_true; lra).
    now rewrite E1, E2. }
  assert (He : In e (connectionGraph config ps)) by (rewrite G; now left).
  destruct (connection_edges_well_formed config ps e He) as [_ [_ [H1 H2]]].
  split; [exact H1 | exact H2].
Defined.

(** X9: no pair of particles is connected twice in a frame: the list of
    connections has no duplicate, and two connections with the same
    endpoints are the same connection. *)
Theorem connection_pairs_once :
  forall (config : VisualizerConfig) (ps : list Particle),
    NoDup (connectionGraph config ps)
    /\ forall e1 e2 : Edge,
         In e1 (connectionGraph config ps) ->
         In e2 (connectionGraph config ps) ->
         src e1 = src e2 -> dst e1 = dst e2 -> e1 = e2.
Proof.
  intros config ps. split; [apply NoDup_connections|].
  intros e1 e2 H1 H2 Hs Hd.
  unfold connectionGraph in H1, H2.
  apply In_connections in H1. apply In_connections in H2.
  destruct H1 as [i [j [pi [pj [Ei [Ej [_ [_ [_ ->]]]]]]]]].
  destruct H2 as [i' [j' [pi' [pj' [Ei' [Ej' [_ [_ [_ ->]]]]]]]]].
  cbn in Hs, Hd. subst i' j'.
  rewrite Ei in Ei'. rewrite Ej in Ej'.
  inversion Ei'. inversion Ej'. reflexivity.
Qed.

(** *** The reconciliation, run by run *)

(** Towards a count of [n >= 0], [initParticles] keeps the first [n]
    particles and pushes the missing ones. *)
Lemma initParticles_run (rnd : nat -> R) (config : VisualizerConfig) (w h : R)
    (current : list Particle) (k n : nat) :
  particleCount config = Z.of_nat n ->
  initParticles config w h current rnd k =
  let (l, k') := pushParticles (n - List.length current) w h (style config)
                               (firstn n current) rnd k in
  (Some l, k').
Proof.
  intros Hn. unfold initParticles. rewrite Hn.
  destruct (Z.ltb_spec (Z.of_nat (List.length current)) (Z.of_nat n)) as [Hlt|Hge].
  - rewrite firstn_all2 by lia.
    replace (Z.to_nat (Z.of_nat n - Z.of_nat (List.length current)))
      with (n - List.length current)%nat by lia.
    unfold bind at 1. unfold bind at 1.
    destruct (pushParticles_app rnd w h (style config)
                (n - List.length current) current k) as [added [E L]].
    destruct (pushParticles _ w h (style config) current rnd k) as [l k'].
    cbn [fst] in E. unfold ret at 1.
    destruct l as [|p l]; [|reflexivity].
    destruct current, added; cbn in *; try discriminate; lia.
  - replace (n - List.length current)%nat with 0%nat by lia.
    cbn [pushParticles]. unfold ret at 3.
    destruct (Z.ltb_spec (Z.of_nat n) (Z.of_nat (List.length current)))
      as [Hgt|Hle].
    + destruct (Z.ltb_spec (Z.of_nat n) 0) as [Hneg|_]; [lia|].
      rewrite Nat2Z.id. unfold bind at 1, ret at 1.
      assert (Lf : List.length (firstn n current) = n)
        by (rewrite length_firstn; lia).
      destruct (firstn n current) as [|p l']; [|reflexivity].
      cbn in Lf. subst n. reflexivity.
    + rewrite firstn_all2 by lia.
      unfold bind at 1, ret at 1.
      destruct current as [|p l']; [|reflexivity].
      cbn in Hle, Hge. replace n with 0%nat by lia. reflexivity.
Qed.

Lemma initParticles_fails_iff_negative_aux (rnd : nat -> R)
    (config : VisualizerConfig) (w h : R) (current : list Particle) (k : nat) :
  (particleCount config < 0)%Z ->
  fst (initParticles config w h current rnd k) = None.
Proof.
  intros Hneg. unfold initParticles.
  replace (Z.of_nat (List.length current) <? particleCount config)%Z
    with false by (symmetry; apply Z.ltb_ge; lia).
  replace (particleCount config <? Z.of_nat (List.length current))%Z
    with true by (symmetry; apply Z.ltb_lt; lia).
  replace (particleCount config <? 0)%Z
    with true by (symmetry; apply Z.ltb_lt; lia).
  reflexivity.
Qed.

(** X10: the reconciliation fails (the RangeError of a negative array
    length) exactly when the particle count of the configuration is
    negative, whatever the particle array holds. *)
Theorem initParticles_fails_iff_negative :
  forall (rnd : nat -> R) (config : VisualizerConfig) (w h : R)
         (current : list Particle) (k : nat),
    fst (initParticles config w h current rnd k) = None
    <-> (particleCount config < 0)%Z.
Proof.
  intros rnd config w h current k. split.
  - intros E.
    destruct (Z.ltb_spec (particleCount config) 0) as [Hneg|Hpos]; [exact Hneg|].
    rewrite (initParticles_run rnd config w h current k
               (Z.to_nat (particleCount config))) in E by lia.
    destruct (pushParticles _ w h (style config) _ rnd k). discriminate.
  - apply initParticles_fails_iff_negative_aux.
Qed.

(** X11: the reconciliation is idempotent: run again on its own result with
    the same configuration it returns that array unchanged and draws no
    random number. *)
Theorem initParticles_idempotent :
  forall (rnd : nat -> R) (config : VisualizerConfig) (w h : R)
         (current l : list Particle) (k k1 : nat),
    initParticles config w h current rnd k = (Some l, k1) ->
    initParticles config w h l rnd k1 = (Some l, k1).
Proof.
  intros rnd config w h current l k k1 E.
  assert (Hpos : (0 <= particleCount config)%Z).
  { destruct (Z.ltb_spec (particleCount config) 0) as [Hneg|Hpos]; [|exact Hpos].
    apply (initParticles_fails_iff_negative_aux rnd config w h current k) in Hneg.
    rewrite E in Hneg. discriminate. }
  set (n := Z.to_nat (particleCount config)).
  assert (Hn : particleCount config = Z.of_nat n) by (unfold n; lia).
  rewrite (initParticles_run rnd config w h current k n Hn) in E.
  destruct (pushParticles_app rnd w h (style config)
              (n - List.length current) (firstn n current) k)
    as [added [Ea La]].
  destruct (pushParticles _ w h (style config) (firstn n current) rnd k)
    as [l0 k0].
  inversion E; subst l0 k0. cbn [fst] in Ea.
  assert (Ll : List.length l = n).
  { rewrite Ea, length_app, length_firstn, La. lia. }
  rewrite (initParticles_run rnd config w h l k1 n Hn).
  rewrite Ll, Nat.sub_diag. cbn [pushParticles]. unfold ret.
  rewrite <- Ll at 1. now rewrite firstn_all.
Qed.

(** The theorem on an array of two particles cut to one. *)
Lemma initParticles_idempotent_witness :
  let config := configWith matrix 1 EmptyString in
  let l := [particleAt 1 1 1] in
  initParticles config 1920 1080 l rnd0 0%nat = (Some l, 0%nat).
Proof.
  intros config l.
  apply (initParticles_idempotent rnd0 config 1920 1080
           [particleAt 1 1 1; particleAt 2 2 2] l 0%nat 0%nat).
  reflexivity.
Defined.

(** *** The sampler, continued *)

Lemma Rfloor_lt (r : R) : r < IZR (Rfloor r) + 1.
Proof.
  unfold Rfloor. rewrite minus_IZR. destruct (archimed r) as [H _]. lra.
Qed.

Lemma Rfloor_ge (r : R) (n : Z) : IZR n <= r -> (n <= Rfloor r)%Z.
Proof.
  intros H. pose proof (Rfloor_lt r) as Hlt.
  assert (Hn : IZR n < IZR (Rfloor r + 1)) by (rewrite plus_IZR; lra).
  apply lt_IZR in Hn. lia.
Qed.

Lemma Rfloor_upper (r : R) (n : Z) : r < IZR n -> (Rfloor r < n)%Z.
Proof.
  intros H. pose proof (Rfloor_le r) as Hle.
  apply lt_IZR. lra.
Qed.

Lemma swap_head_Permutation {A} (a b : A) :
  forall (t : list A) (j : nat),
    nth_error t j = Some b ->
    Permutation (a :: t) (b :: assign t j a).
Proof.
  induction t as [|c t IH]; intros [|j] Hj; try discriminate.
  - cbn in Hj. inversion Hj; subst. cbn. apply perm_swap.
  - cbn in Hj. cbn [assign].
    apply perm_trans with (c :: a :: t); [apply perm_swap|].
    apply perm_trans with (c :: b :: assign t j a); [|apply perm_swap].
    apply perm_skip. now apply IH.
Qed.

Lemma swap_Permutation {A} (l : list A) (i j : nat) :
  Permutation l (swap l i j).
Proof.
  unfold swap.
  destruct (nth_error l i) as [a|] eqn:Ei; [|reflexivity].
  destruct (nth_error l j) as [b|] eqn:Ej; [|reflexivity].
  revert i j Ei Ej.
  induction l as [|c l IH]; intros [|i] [|j] Ei Ej; try discriminate.
  - cbn in *. inversion Ei; inversion Ej; subst. reflexivity.
  - cbn in Ei, Ej. inversion Ei; subst c. cbn [assign].
    now apply swap_head_Permutation.
  - cbn in Ei, Ej. inversion Ej; subst c. cbn [assign].
    now apply swap_head_Permutation.
  - cbn in Ei, Ej. cbn [assign]. apply perm_skip. now apply IH.
Qed.

Lemma shuffle_Permutation (rnd : nat -> R) :
  forall (i : nat) (points : list TextPoint) (k : nat),
    Permutation points (fst (shuffle i points rnd k)).
Proof.
  induction i as [|i IH]; intros points k; [reflexivity|].
  cbn [shuffle]. unfold bind at 1, random at 1.
  eapply perm_trans; [|apply IH]. apply swap_Permutation.
Qed.

(** X12: the shuffle only reorders: its result is a permutation of the
    scanned points, so the sampler loses and invents no point; and each
    index it draws, floor(random x (i + 1)), lies in 0 .. i, inside the
    part of the array that is not yet fixed. *)
Theorem shuffle_is_permutation :
  forall (rnd : nat -> R) (b : Browser) (config : VisualizerConfig) (k : nat),
    unit_draws rnd ->
    Permutation
      (scanPixels (imageDataOf b config) (gapOf b config) (scanHeightOf config)
                  (pixels (width (resolution config)))
                  (pixels (height (resolution config))))
      (fst (processText b config rnd k))
    /\ forall i j : nat,
         (0 <= Rfloor (rnd j * (INR i + 1)) <= Z.of_nat i)%Z.
Proof.
  intros rnd b config k Hu. split.
  - rewrite processText_eq. cbv zeta. apply shuffle_Permutation.
  - intros i j. pose proof (Hu j) as Hr.
    pose proof (pos_INR i) as Hi.
    split.
    + apply Rfloor_ge. cbn. nra.
    + assert (H : (Rfloor (rnd j * (INR i + 1)) < Z.of_nat i + 1)%Z).
      { apply Rfloor_upper. rewrite plus_IZR, <- INR_IZR_INZ. cbn. nra. }
      lia.
Qed.

(** The theorem on the text AB on the opaque scratch canvas. *)
Lemma shuffle_is_permutation_witness :
  let config := configWith network 200 "AB" in
  Permutation
    (scanPixels (imageDataOf solidBrowser config) (gapOf solidBrowser config)
                (scanHeightOf config) 1920 1080)
    (fst (processText solidBrowser config rndHalf 0%nat)).
Proof.
  intros config.
  destruct (shuffle_is_permutation rndHalf solidBrowser config 0%nat
              rndHalf_unit) as [H _].
  exact H.
Defined.

(** X13: the auto-scaled font size is an integer of 0 .. 250 for which the
    text, whose width is measured at 250 and scales with the font size, is
    at most 700 wide (800 less the two margins of 50); the sampling gap is
    an integer of 2 .. 6. *)
Theorem font_fits_and_gap_bounded :
  forall textWidth : R,
    let fontSize := fitFontSize textWidth in
    (0 <= fontSize <= 250)%Z
    /\ IZR fontSize / 250 * textWidth <= 700
    /\ (2 <= samplingGap fontSize <= 6)%Z.
Proof.
  intros textWidth fontSize.
  assert (Hf : (0 <= fontSize <= 250)%Z
               /\ IZR fontSize / 250 * textWidth <= 700).
  { unfold fontSize, fitFontSize, scanWidth.
    destruct (Rltb (800 - 50 * 2) textWidth) eqn:E.
    - apply Rltb_true in E.
      assert (Hpos : 0 < textWidth) by lra.
      pose proof (Rinv_0_lt_compat _ Hpos) as Hi.
      assert (Hti : textWidth * / textWidth = 1) by (apply Rinv_r; lra).
      set (v := 250 * ((800 - 50 * 2) / textWidth)).
      assert (Hv : 0 <= v < 250).
      { unfold v, Rdiv. split; [nra|].
        assert (700 * / textWidth < 1) by nra. lra. }
      pose proof (Rfloor_le v) as Hle.
      split.
      + split; [apply Rfloor_ge; cbn; lra|].
        assert (Rfloor v < 250)%Z by (apply Rfloor_upper; lra). lia.
      + assert (Hvw : v * textWidth = 250 * 700).
        { unfold v, Rdiv.
          replace (250 * ((800 - 50 * 2) * / textWidth) * textWidth)
            with (250 * 700 * (textWidth * / textWidth)) by ring.
          rewrite Hti. ring. }
        assert (IZR (Rfloor v) * textWidth <= v * textWidth) by nra.
        lra.
    - apply Rltb_false in E. split; [lia|]. lra. }
  destruct Hf as [[H0 H250] Hfit].
  split; [lia|]. split; [exact Hfit|].
  split; [apply samplingGap_ge_2|].
  unfold samplingGap.
  assert (Hq : IZR fontSize / 40 < IZR 7).
  { apply IZR_le in H250. lra. }
  apply Rfloor_upper in Hq. lia.
Qed.

(** *** The control surface *)

Lemma RESOLUTIONS_ratio (res : Resolution) :
  In res RESOLUTIONS ->
  (0 < width res)%N /\ (0 < height res)%N
  /\ 0.5625 <= pixels (width res) * pixels (height res) / (1920 * 1080) <= 4.
Proof.
  unfold RESOLUTIONS, fullHD.
  intros [<-|[<-|[<-|[<-|[<-|[]]]]]]; unfold pixels; cbn;
    (split; [reflexivity|]); (split; [reflexivity|]); lra.
Qed.

Lemma selected_resolution (value : string) :
  let res :=
    match find (fun r => String.eqb (label r) value) RESOLUTIONS with
    | Some r => r
    | None => fullHD
    end in
  In res RESOLUTIONS
  /\ (forall r, In r RESOLUTIONS -> label r = value -> res = r)
  /\ ((forall r, In r RESOLUTIONS -> label r <> value) -> res = fullHD).
Proof.
  cbv zeta.
  destruct (find (fun r => String.eqb (label r) value) RESOLUTIONS)
    as [r0|] eqn:Ef.
  - apply find_some in Ef as Hs. destruct Hs as [Hin Hl].
    apply String.eqb_eq in Hl.
    split; [exact Hin|]. split.
    + intros r Hr Hv. subst value.
      (* the labels of the table are pairwise different *)
      unfold RESOLUTIONS, fullHD in Hin, Hr.
      cbn in Hin, Hr.
      destruct Hin as [<-|[<-|[<-|[<-|[<-|[]]]]]];
        destruct Hr as [<-|[<-|[<-|[<-|[<-|[]]]]]];
        first [reflexivity | discriminate Hv].
    + intros Hno. exfalso. exact (Hno r0 Hin Hl).
  - split; [left; reflexivity|]. split; [|reflexivity].
    intros r Hr Hv.
    pose proof (find_none _ _ Ef r Hr) as Hn. cbn in Hn.
    apply String.eqb_neq in Hn. contradiction.
Qed.

Lemma sqrt_ratio_bounds (q : R) :
  0.5625 <= q <= 4 -> 0.75 <= sqrt q <= 2.
Proof.
  intros [Hl Hu]. split.
  - replace 0.75 with (sqrt (0.75 * 0.75)) by (apply sqrt_square; lra).
    apply sqrt_le_1_alt. lra.
  - replace 2 with (sqrt (2 * 2)) by (apply sqrt_square; lra).
    apply sqrt_le_1_alt. lra.
Qed.

Lemma Rfloor_between (r : R) (lo hi : Z) :
  IZR lo <= r <= IZR hi -> (lo <= Rfloor r <= hi)%Z.
Proof.
  intros [Hl Hu]. split; [now apply Rfloor_ge|].
  pose proof (Rfloor_le r) as Hle. apply le_IZR. lra.
Qed.

Lemma Rmin_bounds (a b lo hi : R) :
  lo <= a -> lo <= b -> b <= hi -> lo <= Rmin a b <= hi.
Proof.
  intros Ha Hb Hh. unfold Rmin. destruct (Rle_dec a b); split; lra.
Qed.

Lemma resolution_count_bounds (value : string) (config : VisualizerConfig) :
  let n := particleCount (handleResolutionChange value config) in
  (56 <= n <= 600)%Z
  /\ (text_active config = false -> is_style (style config) bokeh = false ->
      (112 <= n <= 400)%Z)
  /\ (text_active config = false -> is_style (style config) bokeh = true ->
      (56 <= n <= 100)%Z).
Proof.
  unfold handleResolutionChange. cbv zeta. cbn [particleCount].
  destruct (selected_resolution value) as [Hin _].
  cbv zeta in Hin.
  destruct (RESOLUTIONS_ratio _ Hin) as [_ [_ Hq]].
  apply sqrt_ratio_bounds in Hq.
  match goal with
  | |- context [Rfloor (150 * sqrt ?q)] =>
      assert (Hn0 : (112 <= Rfloor (150 * sqrt q) <= 300)%Z)
        by (apply Rfloor_between; lra);
      set (n0 := Rfloor (150 * sqrt q)) in *
  end.
  assert (Hr0 : 112 <= IZR n0 <= 300)
    by (split; [apply (IZR_le 112) | apply (IZR_le _ 300)]; lia).
  destruct (is_style (style config) bokeh), (text_active config).
  - assert (H1 : 56 <= Rmin (IZR n0 * 0.5) 100 <= 100)
      by (apply Rmin_bounds; lra).
    assert (H2 : 84 <= Rmin (Rmin (IZR n0 * 0.5) 100 * 1.5) 600 <= 600)
      by (apply Rmin_bounds; lra).
    pose proof (Rfloor_between _ 84 600 H2).
    repeat split; intros; try discriminate; lia.
  - assert (H1 : 56 <= Rmin (IZR n0 * 0.5) 100 <= 100)
      by (apply Rmin_bounds; lra).
    pose proof (Rfloor_between _ 56 100 H1).
    repeat split; intros; try discriminate; lia.
  - assert (H1 : 112 <= Rmin (IZR n0) 400 <= 400)
      by (apply Rmin_bounds; lra).
    assert (H2 : 168 <= Rmin (Rmin (IZR n0) 400 * 1.5) 600 <= 600)
      by (apply Rmin_bounds; lra).
    pose proof (Rfloor_between _ 168 600 H2).
    repeat split; intros; try discriminate; lia.
  - assert (H1 : 112 <= Rmin (IZR n0) 400 <= 400)
      by (apply Rmin_bounds; lra).
    pose proof (Rfloor_between _ 112 400 H1).
    repeat split; intros; try discriminate; lia.
Qed.

(** X14: choosing a resolution sets the resolution of that label, or Full HD
    when no resolution has the label, and a particle count between 56 and
    600: between 112 and 400 without text in a style other than bokeh,
    between 56 and 100 without text in the bokeh style. *)
Theorem resolution_change_caps_particles :
  forall (value : string) (config : VisualizerConfig),
    let config' := handleResolutionChange value config in
    In (resolution config') RESOLUTIONS
    /\ (forall r, In r RESOLUTIONS -> label r = value ->
                  resolution config' = r)
    /\ ((forall r, In r RESOLUTIONS -> label r <> value) ->
        resolution config' = fullHD)
    /\ (56 <= particleCount config' <= 600)%Z
    /\ (text config = EmptyString -> style config <> bokeh ->
        (112 <= particleCount config' <= 400)%Z)
    /\ (text config = EmptyString -> style config = bokeh ->
        (56 <= particleCount config' <= 100)%Z).
Proof.
  intros value config config'.
  destruct (selected_resolution value) as [H1 [H2 H3]]. cbv zeta in H1, H2, H3.
  destruct (resolution_count_bounds value config) as [B1 [B2 B3]].
  cbv zeta in B1, B2, B3. fold config' in B1, B2, B3.
  split; [exact H1|]. split; [exact H2|]. split; [exact H3|].
  split; [exact B1|]. split.
  - intros Ht Hs. apply B2.
    + unfold text_active. now rewrite Ht.
    + unfold is_style. destruct (VisualStyle_eq_dec (style config) bokeh);
        [contradiction | reflexivity].
  - intros Ht Hs. apply B3.
    + unfold text_active. now rewrite Ht.
    + unfold is_style. destruct (VisualStyle_eq_dec (style config) bokeh);
        [reflexivity | contradiction].
Qed.

Lemma initialConfig_withinRanges : withinRanges initialConfig.
Proof.
  unfold withinRanges, initialConfig. cbn.
  split; [left; reflexivity|]. split; [lra|]. split; [lia | lra].
Qed.

Lemma handleEvent_withinRanges (rnd : nat -> R) (e : AppEvent)
    (config : VisualizerConfig) (k : nat) :
  withinControls e -> withinRanges config ->
  withinRanges (fst (handleEvent e config rnd k)).
Proof.
  intros He [Hres [Hsp [Hn Hd]]].
  destruct e as [value|t|st| |value|value|value|value].
  - cbn [handleEvent ret fst].
    destruct (selected_resolution value) as [H1 _].
    destruct (resolution_count_bounds value config) as [H2 _].
    cbv zeta in H1, H2.
    unfold withinRanges. split; [exact H1|].
    split; [exact Hsp|]. split; [lia | exact Hd].
  - cbn in *. unfold withinRanges. cbn. repeat split; auto; try lia; lra.
  - cbn in *. unfold withinRanges. cbn. repeat split; auto; try lia; try lra;
      unfold is_style;
      destruct (VisualStyle_eq_dec st bokeh), (VisualStyle_eq_dec st matrix);
      lra.
  - cbn in *. unfold withinRanges. cbn. repeat split; auto; try lia; lra.
  - cbn in *. unfold withinRanges. cbn. repeat split; auto; try lia; lra.
  - cbn in *. unfold withinRanges. cbn. repeat split; auto; try lia; lra.
  - cbn in *. unfold withinRanges. cbn. repeat split; auto; try lia; lra.
  - cbn in *. unfold withinRanges. cbn. destruct He as [H50 H300].
    apply IZR_le in H50. apply IZR_le in H300.
    repeat split; auto; try lia; lra.
Qed.

Lemma handleEvents_withinRanges (rnd : nat -> R) :
  forall (es : list AppEvent) (config : VisualizerConfig) (k : nat),
    Forall withinControls es -> withinRanges config ->
    withinRanges (fst (handleEvents es config rnd k)).
Proof.
  induction es as [|e es IH]; intros config k Hes Hc; [exact Hc|].
  inversion Hes as [|? ? He Hes']; subst.
  cbn [handleEvents]. unfold bind at 1.
  pose proof (handleEvent_withinRanges rnd e config k He Hc) as H1.
  destruct (handleEvent e config rnd k) as [config' k'].
  now apply IH.
Qed.

(** X15: whatever the user does with the controls, the sliders staying
    within their ranges, the configuration keeps a resolution of the table
    (so a positive width and height), a speed within [0.1, 5], a particle
    count within 20 .. 1000 and a connection distance within [50, 300]. *)
Theorem controls_keep_configuration_within_ranges :
  forall (rnd : nat -> R) (es : list AppEvent) (k : nat),
    Forall withinControls es ->
    let config := fst (handleEvents es initialConfig rnd k) in
    In (resolution config) RESOLUTIONS
    /\ (0 < width (resolution config))%N
    /\ (0 < height (resolution config))%N
    /\ 0.1 <= speed config <= 5
    /\ (20 <= particleCount config <= 1000)%Z
    /\ 50 <= connectionDistance config <= 300.
Proof.
  intros rnd es k Hes config.
  destruct (handleEvents_withinRanges rnd es initialConfig k Hes
              initialConfig_withinRanges) as [Hres [Hsp [Hn Hd]]].
  fold config in Hres, Hsp, Hn, Hd.
  destruct (RESOLUTIONS_ratio _ Hres) as [Hw [Hh _]].
  repeat split; auto; try lia; lra.
Qed.

(** The theorem on the choice of the portrait resolution in the bokeh style,
    followed by the fastest speed. *)
Lemma controls_keep_configuration_within_ranges_witness :
  let config :=
    fst (handleEvents [StyleSelected bokeh;
                       ResolutionSelected "Portrait (1080x1920)";
                       SpeedSlid 5]
                      initialConfig rnd0 0%nat) in
  In (resolution config) RESOLUTIONS
  /\ (20 <= particleCount config <= 1000)%Z.
Proof.
  intros config.
  assert (Hes : Forall withinControls
                       [StyleSelected bokeh;
                        ResolutionSelected "Portrait (1080x1920)";
                        SpeedSlid 5]).
  { constructor; [exact I|]. constructor; [exact I|].
    constructor; [cbn; lra | constructor]. }
  destruct (controls_keep_configuration_within_ranges rnd0 _ 0%nat Hes)
    as [H1 [_ [_ [_ [H2 _]]]]].
  split; [exact H1 | exact H2].
Defined.

(** X16: for every configuration the controls can produce, the sliders
    staying within their ranges, the reconciliation does not fail and
    leaves exactly particleCount particles, whatever the array held; the
    scale ratio lies in (0, 2] and the effective speed is positive. *)
Theorem reachable_configuration_renders :
  forall (rnd : nat -> R) (es : list AppEvent) (k k' : nat)
         (current : list Particle),
    Forall withinControls es ->
    let config := fst (handleEvents es initialConfig rnd k) in
    let sr := scaleRatioOf (width (resolution config)) in
    (exists l,
        fst (initParticles config (pixels (width (resolution config)))
                           (pixels (height (resolution config)))
                           current rnd k') = Some l
        /\ Z.of_nat (List.length l) = particleCount config)
    /\ 0 < sr <= 2
    /\ 0 < speed config * sr.
Proof.
  intros rnd es k k' current Hes config sr.
  destruct (handleEvents_withinRanges rnd es initialConfig k Hes
              initialConfig_withinRanges) as [Hres [Hsp [Hn Hd]]].
  fold config in Hres, Hsp, Hn, Hd.
  assert (Hsr : 0 < sr <= 2).
  { unfold sr, scaleRatioOf. revert Hres. unfold RESOLUTIONS, fullHD.
    intros [<-|[<-|[<-|[<-|[<-|[]]]]]]; unfold pixels; cbn; lra. }
  split; [|split; [exact Hsr | nra]].
  set (n := Z.to_nat (particleCount config)).
  assert (En : particleCount config = Z.of_nat n) by (unfold n; lia).
  rewrite (initParticles_run rnd config _ _ current k' n En).
  destruct (pushParticles_app rnd (pixels (width (resolution config)))
              (pixels (height (resolution config))) (style config)
              (n - List.length current) (firstn n current) k')
    as [added [Ea La]].
  destruct (pushParticles _ _ _ (style config) (firstn n current) rnd k')
    as [l k1].
  cbn [fst] in *. exists l. split; [reflexivity|].
  rewrite Ea, length_app, length_firstn, La. lia.
Qed.

(** The theorem on the configuration after a change of style and count. *)
Lemma reachable_configuration_renders_witness :
  let config :=
    fst (handleEvents [StyleSelected matrix; CountSlid 30]
                      initialConfig rnd0 0%nat) in
  exists l,
    fst (initParticles config 1920 1080 [] rnd0 0%nat) = Some l
    /\ Z.of_nat (List.length l) = 30%Z.
Proof.
  intros config.
  assert (Hes : Forall withinControls [StyleSelected matrix; CountSlid 30]).
  { constructor; [exact I|]. constructor; [cbn; lia | constructor]. }
  destruct (reachable_configuration_renders rnd0 _ 0%nat 0%nat [] Hes)
    as [H _].
  exact H.
Defined.

(** *** Recording *)

Lemma firstSupported_spec (sup : string -> bool) :
  forall types : list string,
    Forall (fun t => t <> EmptyString) types ->
    (firstSupported sup types = EmptyString /\
     forall t, In t types -> sup t = false)
    \/ (exists before after,
           types = before ++ firstSupported sup types :: after
           /\ sup (firstSupported sup types) = true
           /\ firstSupported sup types <> EmptyString
           /\ forall t, In t before -> sup t = false).
Proof.
  induction types as [|t types IH]; intros Hne.
  - left. split; [reflexivity | intros t []].
  - inversion Hne as [|? ? Ht Hne']; subst. cbn [firstSupported].
    destruct (sup t) eqn:Es.
    + right. exists [], types. repeat split; auto. intros u [].
    + destruct (IH Hne') as [[E Hall]|[before [after [E [Hs [Hn Hb]]]]]].
      * left. split; [exact E|]. intros u [<-|Hu]; auto.
      * right. exists (t :: before), after. repeat split; auto.
        -- cbn. now rewrite <- E.
        -- intros u [<-|Hu]; auto.
Qed.

Lemma firstSupported_In (sup : string -> bool) (types : list string) :
  firstSupported sup types <> EmptyString ->
  In (firstSupported sup types) types /\ sup (firstSupported sup types) = true.
Proof.
  induction types as [|t types IH]; cbn; [congruence|].
  destruct (sup t) eqn:Es; [auto|].
  intros H. destruct (IH H). auto.
Qed.

Lemma mimeTypes_nonempty : Forall (fun t => t <> EmptyString) mimeTypes.
Proof. unfold mimeTypes. repeat constructor; discriminate. Qed.

(** X17: the format chosen for a recording is the first candidate that the
    browser supports: it is a candidate, it is supported, and every
    candidate before it is unsupported; it is the empty string exactly when
    no candidate is supported. *)
Theorem first_supported_format :
  forall sup : string -> bool,
    let selected := firstSupported sup mimeTypes in
    (selected = EmptyString <-> forall t, In t mimeTypes -> sup t = false)
    /\ (selected <> EmptyString ->
        exists before after,
          mimeTypes = before ++ selected :: after
          /\ sup selected = true
          /\ forall t, In t before -> sup t = false).
Proof.
  intros sup selected. unfold selected.
  destruct (firstSupported_spec sup mimeTypes mimeTypes_nonempty)
    as [[E Hall]|[before [after [E [Hs [Hn Hb]]]]]].
  - split; [split; auto|]. intros Hne. contradiction.
  - split.
    + split; [intros E0; contradiction|].
      intros Hall. rewrite Hall in Hs; [discriminate|].
      apply firstSupported_In, Hn.
    + intros _. exists before, after. auto.
Qed.

Lemma startRecording_unsupported (pf : Platform) (s : Studio) :
  (forall t, In t mimeTypes -> isTypeSupported pf t = false) ->
  startRecording pf s = s.
Proof.
  intros Hnone. unfold startRecording.
  destruct (canvasElement pf); [|reflexivity]. cbn [negb].
  destruct (firstSupported_spec (isTypeSupported pf) mimeTypes
              mimeTypes_nonempty)
    as [[E _]|[before [after [E [Hs [Hn _]]]]]].
  - now rewrite E.
  - rewrite Hnone in Hs; [discriminate|]. apply firstSupported_In, Hn.
Qed.

Lemma startRecording_supported (pf : Platform) (s : Studio) :
  canvasElement pf = true ->
  firstSupported (isTypeSupported pf) mimeTypes <> EmptyString ->
  startRecording pf s =
  mkStudio (appIsRecording s) (downloadUrl s) true
           (Some (mkRecorder (firstSupported (isTypeSupported pf) mimeTypes)
                             recording false)) [].
Proof.
  intros Hc Hn. unfold startRecording. rewrite Hc. cbn [negb].
  destruct (firstSupported (isTypeSupported pf) mimeTypes);
    [contradiction | reflexivity].
Qed.

Lemma stuckStudio_step (pf : Platform) (e : StudioEvent) :
  studioStep pf e stuckStudio = stuckStudio.
Proof.
  destruct e; cbn; [|reflexivity|reflexivity].
  unfold toggleRecording. cbn. now destruct (canvasHandle pf).
Qed.

Lemma stuckStudio_run (pf : Platform) (es : list StudioEvent) :
  studioRun pf es stuckStudio = stuckStudio.
Proof.
  unfold studioRun. induction es as [|e es IH]; [reflexivity|].
  cbn [fold_left]. now rewrite stuckStudio_step.
Qed.

(** X18: when the browser supports none of the candidate formats, the first
    click on the record button starts no recorder and yet sets the
    isRecording flag of App; from then on no click and no browser event
    changes anything: the flag stays set, no recorder exists and no
    download is ever offered. *)
Theorem unsupported_recording_sticks :
  forall (pf : Platform) (es : list StudioEvent),
    canvasHandle pf = true ->
    (forall t, In t mimeTypes -> isTypeSupported pf t = false) ->
    let s := studioRun pf (RecordClicked :: es) idleStudio in
    appIsRecording s = true
    /\ mediaRecorder s = None
    /\ canvasIsRecording s = false
    /\ downloadUrl s = None.
Proof.
  intros pf es Hh Hnone s.
  assert (E1 : studioStep pf RecordClicked idleStudio = stuckStudio).
  { cbn [studioStep]. unfold toggleRecording. rewrite Hh.
    unfold idleStudio. cbn [appIsRecording].
    now rewrite startRecording_unsupported. }
  unfold s, studioRun. cbn [fold_left]. rewrite E1.
  fold (studioRun pf es stuckStudio). rewrite stuckStudio_run.
  repeat split; reflexivity.
Qed.

(** The theorem on a browser without any supported format, clicked three
    times. *)
Lemma unsupported_recording_sticks_witness :
  let pf := mkPlatform true true (fun _ => false) (fun _ t => t) in
  appIsRecording
    (studioRun pf [RecordClicked; RecordClicked; StopDelivered; RecordClicked]
               idleStudio) = true.
Proof.
  intros pf.
  destruct (unsupported_recording_sticks pf
              [RecordClicked; StopDelivered; RecordClicked]
              eq_refl (fun _ _ => eq_refl)) as [H _].
  exact H.
Defined.

Lemma dataAvailable_run (pf : Platform) (r : Recorder) :
  forall (sizes : list N) (a : bool) (d : option string) (c : bool)
         (cs : list N),
    studioRun pf (map DataAvailable sizes) (mkStudio a d c (Some r) cs)
    = mkStudio a d c (Some r) (cs ++ filter (fun n => (0 <? n)%N) sizes).
Proof.
  unfold studioRun.
  induction sizes as [|n sizes IH]; intros a d c cs.
  - cbn. now rewrite app_nil_r.
  - cbn [map fold_left studioStep mediaRecorder filter].
    unfold ondataavailable. destruct (0 <? n)%N.
    + cbn [appIsRecording downloadUrl canvasIsRecording mediaRecorder chunks].
      rewrite IH, <- app_assoc. reflexivity.
    + apply IH.
Qed.

(** X19: with a supported format, a click on the record button, any chunks
    delivered by the browser, a second click and the stop event of the
    recorder end with both isRecording flags cleared, the recorder inactive,
    and a download URL for the blob of the non-empty chunks, in their order
    of arrival, in the first supported format. *)
Theorem recording_round_trip :
  forall (pf : Platform) (sizes : list N),
    canvasHandle pf = true ->
    canvasElement pf = true ->
    (exists t, In t mimeTypes /\ isTypeSupported pf t = true) ->
    let selected := firstSupported (isTypeSupported pf) mimeTypes in
    let kept := filter (fun n => (0 <? n)%N) sizes in
    studioRun pf
      (RecordClicked :: map DataAvailable sizes
         ++ [RecordClicked; StopDelivered])
      idleStudio
    = mkStudio false (Some (createObjectURL pf kept selected)) false
               (Some (mkRecorder selected inactive false)) kept.
Proof.
  intros pf sizes Hh Hc [t [Ht Hs]] selected kept.
  assert (Hsel : selected <> EmptyString).
  { destruct (firstSupported_spec (isTypeSupported pf) mimeTypes
                mimeTypes_nonempty)
      as [[_ Hall]|[_ [_ [_ [_ [Hn _]]]]]]; [|exact Hn].
    rewrite (Hall t Ht) in Hs. discriminate. }
  assert (E1 : studioStep pf RecordClicked idleStudio
               = mkStudio true None true
                          (Some (mkRecorder selected recording false)) []).
  { cbn [studioStep]. unfold toggleRecording. rewrite Hh.
    unfold idleStudio. cbn [appIsRecording].
    now rewrite startRecording_supported. }
  unfold studioRun. cbn [fold_left]. rewrite E1.
  rewrite fold_left_app.
  fold (studioRun pf (map DataAvailable sizes)
          (mkStudio true None true
                    (Some (mkRecorder selected recording false)) [])).
  rewrite dataAvailable_run. cbn [app]. fold kept.
  cbn. unfold toggleRecording. rewrite Hh. reflexivity.
Qed.

(** The theorem on a browser that supports only WebM and delivers an empty
    chunk between two chunks. *)
Lemma recording_round_trip_witness :
  let pf := mkPlatform true true (String.eqb "video/webm")
                       (fun _ t => t) in
  studioRun pf
    [RecordClicked; DataAvailable 10; DataAvailable 0; DataAvailable 7;
     RecordClicked; StopDelivered]
    idleStudio
  = mkStudio false (Some "video/webm"%string) false
             (Some (mkRecorder "video/webm" inactive false)) [10%N; 7%N].
Proof.
  intros pf.
  assert (Hs : exists t, In t mimeTypes /\ isTypeSupported pf t = true).
  { exists "video/webm"%string. split; [|reflexivity].
    unfold mimeTypes. right. right. right. left. reflexivity. }
  exact (recording_round_trip pf [10%N; 0%N; 7%N] eq_refl eq_refl Hs).
Defined.

(** *** The constructor *)

Lemma hypot_factor (dx dy : R) :
  dx <> 0 ->
  sqrt (dx * dx + dy * dy) = Rabs dx * sqrt (1 + (dy / dx)²)
  /\ 0 < sqrt (1 + (dy / dx)²).
Proof.
  intros Hdx.
  assert (H1 : 0 < 1 + (dy / dx)²) by (pose proof (Rle_0_sqr (dy / dx)); lra).
  split; [|now apply sqrt_lt_R0].
  rewrite <- sqrt_Rsqr_abs, <- sqrt_mult; [|apply Rle_0_sqr | lra].
  f_equal. unfold Rsqr. field. exact Hdx.
Qed.

Lemma polar_round_trip (dx dy : R) :
  cos (atan2 dy dx) * sqrt (dx * dx + dy * dy) = dx
  /\ sin (atan2 dy dx) * sqrt (dx * dx + dy * dy) = dy.
Proof.
  unfold atan2.
  destruct (Rlt_dec 0 dx) as [Hp|Hnp].
  - destruct (hypot_factor dx dy ltac:(lra)) as [-> Hs].
    rewrite cos_atan, sin_atan, Rabs_right by lra.
    split; field; lra.
  - destruct (Rlt_dec dx 0) as [Hn|Hnn].
    + destruct (hypot_factor dx dy ltac:(lra)) as [-> Hs].
      rewrite Rabs_left by lra.
      destruct (Rle_dec 0 dy).
      * rewrite neg_cos, neg_sin, cos_atan, sin_atan. split; field; lra.
      * rewrite cos_minus, sin_minus, cos_PI, sin_PI, cos_atan, sin_atan.
        split; field; lra.
    + assert (E0 : dx = 0) by lra. subst dx.
      replace (0 * 0 + dy * dy) with (Rsqr dy) by (unfold Rsqr; ring).
      rewrite sqrt_Rsqr_abs.
      destruct (Rlt_dec 0 dy).
      * rewrite cos_PI2, sin_PI2, Rabs_right by lra. split; ring.
      * destruct (Rlt_dec dy 0).
        -- rewrite cos_neg, sin_neg, cos_PI2, sin_PI2, Rabs_left by lra.
           split; ring.
        -- assert (E1 : dy = 0) by lra. subst dy.
           rewrite Rabs_R0. split; ring.
Qed.

(** X20: the angle and radius given to a particle at construction are the
    polar coordinates of its position about the centre of the surface: the
    position is centre + radius x (cos angle, sin angle), so the first
    vortex update moves the particle along its circle and does not jump. *)
Theorem constructed_polar_coordinates :
  forall (rnd : nat -> R) (w h : R) (st : VisualStyle) (k : nat),
    let p := fst (newParticle w h st rnd k) in
    x p = w / 2 + cos (angle p) * radius p
    /\ y p = h / 2 + sin (angle p) * radius p.
Proof.
  intros rnd w h st k p.
  destruct (newParticle_fields rnd w h st k) as [Ex [Ey [_ [_ [Ea Er]]]]].
  fold p in Ex, Ey, Ea, Er.
  destruct (polar_round_trip (rnd k * w - w / 2) (rnd (S k) * h - h / 2))
    as [Hc Hs].
  rewrite Ea, Er, Hc, Hs, Ex, Ey. split; ring.
Qed.

(** X21: a particle is constructed inside the surface, without target, with
    a velocity that depends on the style alone: bokeh drifts sideways by at
    most 0.1 and rises, by 0.2 to 0.7; matrix does not move sideways and
    falls, by 2 to 7; nova has both components in [-1, 1]; vortex is at
    rest. *)
Theorem constructed_state :
  forall (rnd : nat -> R) (w h : R) (st : VisualStyle) (k : nat),
    unit_draws rnd ->
    0 <= w -> 0 <= h ->
    let p := fst (newParticle w h st rnd k) in
    (0 <= x p <= w /\ 0 <= y p <= h)
    /\ (targetX p = None /\ targetY p = None)
    /\ (st = bokeh -> -0.1 <= vx p <= 0.1 /\ -0.7 <= vy p <= -0.2
                      /\ 5 <= size p <= 20)
    /\ (st = matrix -> vx p = 0 /\ 2 <= vy p <= 7)
    /\ (st = nova -> -1 <= vx p <= 1 /\ -1 <= vy p <= 1)
    /\ (st = vortex -> vx p = 0 /\ vy p = 0)
    /\ (st <> bokeh -> 0.5 <= size p <= 2.5).
Proof.
  intros rnd w h st k Hu Hw Hh p.
  destruct (newParticle_fields rnd w h st k) as [Ex [Ey [Etx [Ety _]]]].
  fold p in Ex, Ey, Etx, Ety.
  pose proof (Hu k) as H0. pose proof (Hu (S k)) as H1.
  split; [rewrite Ex, Ey; split; nra|].
  split; [auto|].
  pose proof (Hu (S (S (S k)))) as H3.
  pose proof (Hu (S (S (S (S (S k)))))) as H5.
  pose proof (Hu (S (S (S (S (S (S k))))))) as H6.
  pose proof (Hu (S (S (S (S (S (S (S k)))))))) as H7.
  unfold p.
  split; [intros ->; cbn; repeat split; lra|].
  split; [intros ->; cbn; repeat split; lra|].
  split; [intros ->; cbn; repeat split; lra|].
  split; [intros ->; cbn; repeat split; lra|].
  intros NE. destruct st; try contradiction; cbn; split; lra.
Qed.

(** The theorem on a bokeh particle built from draws that are all 1/2. *)
Lemma constructed_state_witness :
  let p := fst (newParticle 1920 1080 bokeh rndHalf 0%nat) in
  -0.7 <= vy p <= -0.2.
Proof.
  intros p.
  assert (Hw : 0 <= 1920) by lra. assert (Hh : 0 <= 1080) by lra.
  destruct (constructed_state rndHalf 1920 1080 bokeh 0%nat rndHalf_unit
              Hw Hh) as [_ [_ [H _]]].
  destruct (H eq_refl) as [_ [Hv _]]. exact Hv.
Defined.

(** *** Drawing *)

(** X22: depth scales what is drawn inversely, in every style: of two
    particles of the same positive size, the one of smaller depth is drawn
    with a larger extent (radius, or trail length) and a larger alpha in
    each of its primitives; every alpha and extent is positive. *)
Theorem closer_is_larger_and_brighter :
  forall (colorRgb : string) (st : VisualStyle) (p q : Particle),
    0 < z p -> z p < z q ->
    0 < size p -> size q = size p ->
    Forall2 (fun a b => 0 < alphaOf b < alphaOf a
                        /\ 0 < extentOf b < extentOf a)
            (draw colorRgb st p) (draw colorRgb st q).
Proof.
  intros colorRgb st p q Hp Hpq Hs Es.
  assert (Hq : 0 < z q) by lra.
  assert (Hi : 0 < / z q < / z p).
  { split; [now apply Rinv_0_lt_compat|].
    apply Rinv_lt_contravar; [nra | exact Hpq]. }
  unfold draw, Rdiv. rewrite Es.
  destruct (is_style st bokeh); [|destruct (is_style st matrix)];
    repeat constructor; cbn; nra.
Qed.

(** The theorem on two network particles of depths 1 and 2. *)
Lemma closer_is_larger_and_brighter_witness :
  Forall2 (fun a b => 0 < alphaOf b < alphaOf a
                      /\ 0 < extentOf b < extentOf a)
          (draw "6, 182, 212" network (particleAt 0 0 1))
          (draw "6, 182, 212" network (particleAt 5 5 2)).
Proof.
  apply closer_is_larger_and_brighter; cbn; lra.
Defined.

(** *** The cost of sampling *)

Lemma forStep_length {A} (cond : Z -> bool) (body : Z -> list A)
    (gap B : Z) (m : nat) :
  (0 < gap)%Z ->
  (forall v, (List.length (body v) <= m)%nat) ->
  (forall v, cond v = true -> (v < B)%Z) ->
  forall (fuel : nat) (v : Z),
    (List.length (forStep fuel v gap cond body)
     <= m * Z.to_nat ((B - v + gap - 1) / gap))%nat.
Proof.
  intros Hg Hm Hc. induction fuel as [|fuel IH]; intros v; [cbn; lia|].
  cbn [forStep]. destruct (cond v) eqn:Ec; [|cbn; lia].
  apply Hc in Ec. rewrite length_app.
  specialize (IH (v + gap)%Z). specialize (Hm v).
  replace (B - (v + gap) + gap - 1)%Z with (B - v - 1)%Z in IH by lia.
  replace (B - v + gap - 1)%Z with (B - v - 1 + 1 * gap)%Z by lia.
  rewrite Z.div_add by lia.
  assert (Hq : (0 <= (B - v - 1) / gap)%Z) by (apply Z.div_pos; lia).
  replace (Z.to_nat ((B - v - 1) / gap + 1))
    with (S (Z.to_nat ((B - v - 1) / gap))) by lia.
  nia.
Qed.

Lemma steps_at_most (B gap : Z) :
  (2 <= gap)%Z -> (0 <= B)%Z ->
  ((B + gap - 1) / gap <= (B + 1) / 2)%Z.
Proof.
  intros Hg HB.
  pose proof (Z.div_mod (B + 1) 2 ltac:(lia)) as Hdm.
  pose proof (Z.mod_pos_bound (B + 1) 2 ltac:(lia)) as Hm.
  assert (Hq : (0 <= (B + 1) / 2)%Z) by (apply Z.div_pos; lia).
  assert (H : ((B + gap - 1) / gap < (B + 1) / 2 + 1)%Z).
  { apply Z.div_lt_upper_bound; [lia|]. nia. }
  lia.
Qed.

Lemma scanPixels_length (imageData : list Z) (gap : Z) (scanHeight w h : R) :
  (2 <= gap)%Z -> 0 <= scanHeight ->
  (List.length (scanPixels imageData gap scanHeight w h)
   <= 400 * Z.to_nat (Rfloor scanHeight / 2 + 1))%nat.
Proof.
  intros Hg Hs. unfold scanPixels.
  assert (Hrow : forall y : Z,
    (List.length
       (forStep (Z.to_nat scanWidth) 0 gap (fun x => (x <? scanWidth)%Z)
          (fun x =>
             if visible imageData ((y * scanWidth + x) * 4)
             then [mkPoint (IZR x / IZR scanWidth * w)
                           (IZR y / scanHeight * h)]
             else [])) <= 400)%nat).
  { intros y.
    eapply Nat.le_trans;
      [apply (forStep_length _ _ gap scanWidth 1); try lia|].
    - intros v. destruct (visible _ _); cbn; lia.
    - pose proof (steps_at_most scanWidth gap Hg ltac:(unfold scanWidth; lia))
        as Hst.
      unfold scanWidth in *.
      replace (800 - 0 + gap - 1)%Z with (800 + gap - 1)%Z by lia.
      change ((800 + 1) / 2)%Z with 400%Z in Hst. lia. }
  eapply Nat.le_trans;
    [apply (forStep_length _ _ gap (up scanHeight) 400); try lia|].
  - exact Hrow.
  - intros v Hv. apply Rltb_true in Hv.
    destruct (archimed scanHeight) as [Hup _]. apply lt_IZR. lra.
  - assert (HB : (0 <= up scanHeight)%Z).
    { destruct (archimed scanHeight) as [Hup _].
      assert (IZR 0 < IZR (up scanHeight)) by lra.
      apply lt_IZR in H. lia. }
    pose proof (steps_at_most (up scanHeight) gap Hg HB) as Hst.
    replace (up scanHeight - 0 + gap - 1)%Z
      with (up scanHeight + gap - 1)%Z by lia.
    unfold Rfloor.
    replace ((up scanHeight - 1) / 2 + 1)%Z with ((up scanHeight + 1) / 2)%Z.
    + assert (0 <= (up scanHeight + gap - 1) / gap)%Z
        by (apply Z.div_pos; lia).
      nia.
    + replace (up scanHeight + 1)%Z with (up scanHeight - 1 + 1 * 2)%Z by lia.
      now rewrite Z.div_add by lia.
Qed.

(** X23: the sampler scans at most 400 columns and floor(scanHeight) / 2 + 1
    rows, so it yields at most 400 x (floor(scanHeight) / 2 + 1) points,
    whatever the text, its rendering and the output resolution: at most
    90400 points for an output of 1920 x 1080. *)
Theorem sampled_points_bounded :
  forall (rnd : nat -> R) (b : Browser) (config : VisualizerConfig) (k : nat),
    (0 < width (resolution config))%N ->
    (0 < height (resolution config))%N ->
    (List.length (fst (processText b config rnd k))
     <= 400 * Z.to_nat (Rfloor (scanHeightOf config) / 2 + 1))%nat
    /\ (resolution config = fullHD ->
        (Z.of_nat (List.length (fst (processText b config rnd k)))
         <= 90400)%Z).
Proof.
  intros rnd b config k Hw Hh.
  destruct (scanHeightOf_pos config Hw Hh) as [_ [_ Hs]].
  assert (Hg : (2 <= gapOf b config)%Z) by apply samplingGap_ge_2.
  assert (HL : (List.length (fst (processText b config rnd k))
                <= 400 * Z.to_nat (Rfloor (scanHeightOf config) / 2 + 1))%nat).
  { rewrite processText_eq. cbv zeta.
    match goal with
    | |- context [shuffle ?i ?pts rnd k] =>
        destruct (shuffle_keeps rnd (fun _ => True) i pts k) as [E _];
        cbv zeta in E; rewrite E
    end.
    apply scanPixels_length; [exact Hg | lra]. }
  split; [exact HL|].
  intros Hres.
  assert (E450 : scanHeightOf config = 450).
  { unfold scanHeightOf, scanWidth, pixels. rewrite Hres. cbn. lra. }
  rewrite E450 in HL.
  assert (Hf : Rfloor 450 = 450%Z).
  { pose proof (Rfloor_between 450 450 450 ltac:(lra)). lia. }
  rewrite Hf in HL. change (450 / 2 + 1)%Z with 226%Z in HL. lia.
Qed.

(** The theorem on the text AB at 1920 x 1080. *)
Lemma sampled_points_bounded_witness :
  (Z.of_nat (List.length (fst (processText solidBrowser
                                           (configWith network 200 "AB")
                                           rnd0 0%nat))) <= 90400)%Z.
Proof.
  destruct (sampled_points_bounded rnd0 solidBrowser
              (configWith network 200 "AB") 0%nat eq_refl eq_refl) as [_ H].
  exact (H eq_refl).
Defined.

(** *** A change of style *)

(** X24: a change of style does not rebuild the particles: when the array
    already holds particleCount particles, the reconciliation that follows
    [handleStyleChange] returns it as it is and draws no random number, so
    the particles keep the velocity, angle and radius of the style they
    were constructed under. *)
Theorem style_change_keeps_particles :
  forall (rnd : nat -> R) (st : VisualStyle) (config : VisualizerConfig)
         (w h : R) (current : list Particle) (k : nat),
    particleCount config = Z.of_nat (List.length current) ->
    initParticles (handleStyleChange st config) w h current rnd k
    = (Some current, k).
Proof.
  intros rnd st config w h current k Hn.
  rewrite (initParticles_run rnd (handleStyleChange st config) w h current k
             (List.length current)) by exact Hn.
  rewrite Nat.sub_diag, firstn_all. reflexivity.
Qed.

(** The theorem on two network particles and a change to the vortex
    style. *)
Lemma style_change_keeps_particles_witness :
  let current := [set_vx (particleAt 1 1 1) 0.3; particleAt 2 2 2] in
  initParticles (handleStyleChange vortex (configWith network 2 EmptyString))
                1920 1080 current rnd0 0%nat
  = (Some current, 0%nat).
Proof.
  intros current.
  exact (style_change_keeps_particles rnd0 vortex
           (configWith network 2 EmptyString) 1920 1080 current 0%nat
           eq_refl).
Defined.
